(** * Geofence taxi service: zone membership and vehicle tracking

    A shallow embedding of the geofence engine ([services/geofence.ts]),
    the zone catalog ([config/zones.ts]) and the vehicle tracker
    ([services/vehicleTracker.ts]).

    A TypeScript [number] is an IEEE 754 binary64 value, which is what the
    kernel's primitive [float] is: the arithmetic, the square root and the
    comparisons below are the ones the program runs.  [string | null] is
    [option string]; the module-level variables [zones] and [vehicleStore]
    and the console the logger writes to are the fields of [World], which
    the stateful functions take and return. *)

From Stdlib Require Import Floats.
From stdpp Require Import base option list gmap strings.

#[local] Set Warnings "-inexact-float".
#[local] Open Scope string_scope.
#[local] Open Scope list_scope.
#[local] Open Scope nat_scope.
#[local] Open Scope stdpp_scope.

(** ** types/index.ts *)

Abbreviation number := float.

Record GeoPoint : Set := mkGeoPoint {
  latitude : number;
  longitude : number
}.

Inductive EventType : Set := enter | exit.

Record ZoneEvent : Set := mkZoneEvent {
  ev_type : EventType;
  ev_zone : string;
  ev_timestamp : number
}.

Record VehicleLocation : Set := mkVehicleLocation {
  loc_vehicleId : string;
  loc_latitude : number;
  loc_longitude : number;
  loc_timestamp : number;
  currentZone : option string
}.

Record VehicleStatus : Set := mkVehicleStatus {
  st_vehicleId : string;
  st_currentZone : option string;
  lastLocationUpdate : number;
  lastLocation : GeoPoint;
  recentEvents : list ZoneEvent;
  totalEventsTracked : nat
}.

Record TrackingResult : Set := mkTrackingResult {
  res_vehicleId : string;
  res_latitude : number;
  res_longitude : number;
  res_currentZone : option string;
  eventTriggered : bool;
  event : option ZoneEvent
}.

Inductive ZoneType : Set := polygon | circle.

Record Zone : Set := mkZone {
  zone_id : string;
  name : string;
  description : string;
  type : ZoneType;
  coordinates : option (list (number * number));
  center : option (number * number);
  radius : option number
}.

(** ** utils/logger.ts

    The logger prefixes a level and the wall-clock time and prints; the
    console is kept as the list of what was printed, oldest first, each
    message as its template and arguments. *)

Inductive Level : Set := INFO | WARN.

Inductive Message : Set :=
  | AnomalousMovement (vehicleId : string) (fromLat fromLon toLat toLon : number)
  | ExitedAndEntered (vehicleId previousZone newZone : string)
  | Exited (vehicleId previousZone : string)
  | Entered (vehicleId newZone : string)
  | AllCleared
  | InitializedZones (count : nat)
  | ZoneExists (zoneId : string)
  | AddedZone (zoneName : string).

(** ** Module state *)

Record VehicleData : Set := mkVehicleData {
  location : VehicleLocation;
  events : list ZoneEvent
}.

Record World : Type := mkWorld {
  zones : list Zone;
  vehicleStore : gmap string VehicleData;
  console : list (Level * Message)
}.

(** Module initialisation: [let zones: Zone[] = []], [new Map()]. *)
Definition initialWorld : World :=
  {| zones := []; vehicleStore := ∅; console := [] |}.

Module logger.
Definition log (m : Message) (w : World) : World :=
  {| zones := zones w; vehicleStore := vehicleStore w;
     console := console w ++ [(INFO, m)] |}.
Definition warn (m : Message) (w : World) : World :=
  {| zones := zones w; vehicleStore := vehicleStore w;
     console := console w ++ [(WARN, m)] |}.
End logger.

(** ** services/geofence.ts *)

Definition calculateDistance (point1 point2 : GeoPoint) : number :=
  let latDiff := (latitude point1 - latitude point2)%float in
  let lonDiff := (longitude point1 - longitude point2)%float in
  PrimFloat.sqrt (latDiff * latDiff + lonDiff * lonDiff)%float.

Definition isPointInCircle
    (point : GeoPoint) (center : number * number) (radius : number) : bool :=
  let distance :=
    calculateDistance point {| latitude := fst center; longitude := snd center |} in
  (distance <=? radius)%float.

(** One turn of the [for (i = 0, j = length - 1; i < length; j = i++)] loop:
    the state is [(j, inside)].  Both indices are in range whenever the body
    runs, so the last branch is never taken. *)
Definition rayCastingStep (x y : number) (polygonCoordinates : list (number * number))
    (st : nat * bool) (i : nat) : nat * bool :=
  let '(j, inside) := st in
  match polygonCoordinates !! i, polygonCoordinates !! j with
  | Some (xi, yi), Some (xj, yj) =>
      let intersect :=
        xorb (y <? yi)%float (y <? yj)%float
        && (x <? ((xj - xi) * (y - yi)) / (yj - yi) + xi)%float in
      (i, if intersect then negb inside else inside)
  | _, _ => (i, inside)
  end.

Definition isPointInPolygon
    (point : GeoPoint) (polygonCoordinates : list (number * number)) : bool :=
  let x := latitude point in
  let y := longitude point in
  snd (fold_left (rayCastingStep x y polygonCoordinates)
         (seq 0 (length polygonCoordinates))
         (length polygonCoordinates - 1, false)).

Definition isPointInZone (point : GeoPoint) (zone : Zone) : bool :=
  match type zone, center zone, radius zone, coordinates zone with
  | circle, Some c, Some r, _ => isPointInCircle point c r
  | polygon, _, _, Some cs => isPointInPolygon point cs
  | _, _, _, _ => false
  end.

Definition MAX_REALISTIC_JUMP : number := 0.1%float.

Definition isAnomalousMovement
    (previousLocation : option GeoPoint) (currentLocation : GeoPoint) : bool :=
  match previousLocation with
  | None => false
  | Some previous =>
      let distance := calculateDistance previous currentLocation in
      (MAX_REALISTIC_JUMP <? distance)%float
  end.

(** ** config/zones.ts *)

Definition predefinedZones : list Zone :=
  [ {| zone_id := "downtown"; name := "Downtown";
       description := "City center commercial zone"; type := polygon;
       coordinates := Some [ (40.7128, -74.0060); (40.7150, -74.0060);
                             (40.7150, -74.0040); (40.7128, -74.0040) ]%float;
       center := None; radius := None |};
    {| zone_id := "airport"; name := "Airport";
       description := "Airport terminal zone"; type := circle;
       coordinates := None;
       center := Some (40.7769, -73.8740)%float; radius := Some 0.01%float |};
    {| zone_id := "harbor"; name := "Harbor";
       description := "Waterfront harbor zone"; type := polygon;
       coordinates := Some [ (40.7061, -74.0087); (40.7061, -73.9960);
                             (40.6995, -73.9960); (40.6995, -74.0087) ]%float;
       center := None; radius := None |};
    {| zone_id := "stadium"; name := "Stadium";
       description := "Sports complex zone"; type := circle;
       coordinates := None;
       center := Some (40.7282, -73.9942)%float; radius := Some 0.008%float |} ].

Definition initializeZones (w : World) : World :=
  logger.log (InitializedZones (length predefinedZones))
    {| zones := predefinedZones; vehicleStore := vehicleStore w;
       console := console w |}.

Definition getAllZones (w : World) : list Zone := zones w.

Definition addZone (zone : Zone) (w : World) : World :=
  match find (fun z => String.eqb (zone_id z) (zone_id zone)) (zones w) with
  | Some _ => logger.warn (ZoneExists (zone_id zone)) w
  | None =>
      logger.log (AddedZone (name zone))
        {| zones := zones w ++ [zone]; vehicleStore := vehicleStore w;
           console := console w |}
  end.

(** ** services/vehicleTracker.ts *)

Definition MAX_EVENTS_PER_VEHICLE : nat := 50.

(** [Array.prototype.slice(-n)] for the positive [n] the tracker uses: the
    last [n] elements, the whole array when it has fewer. *)
Definition slice_last {A : Type} (n : nat) (l : list A) : list A :=
  drop (length l - n) l.

(** [value || null] on a [string | null]: the empty string is falsy. *)
Definition orNull (value : option string) : option string :=
  match value with
  | Some EmptyString => None
  | _ => value
  end.

(** The [for (const zone of zones)] loop of [findCurrentZone]. *)
Fixpoint firstZoneContaining (point : GeoPoint) (zs : list Zone) : option string :=
  match zs with
  | [] => None
  | zone :: rest =>
      if isPointInZone point zone then Some (name zone)
      else firstZoneContaining point rest
  end.

Definition findCurrentZone (point : GeoPoint) (w : World) : option string :=
  firstZoneContaining point (getAllZones w).

(** The block under "Check if zone changed": what is pushed on the history,
    the [event] and [eventTriggered] locals, and the line logged. *)
Record ZoneChange : Set := mkZoneChange {
  pushed : list ZoneEvent;
  primary : option ZoneEvent;
  triggered : bool;
  logged : option Message
}.

Definition noChange : ZoneChange :=
  {| pushed := []; primary := None; triggered := false; logged := None |}.

Definition zoneChange (vehicleId : string) (previousZone newZone : option string)
    (timestamp : number) : ZoneChange :=
  if decide (previousZone = newZone) then noChange
  else
    match previousZone, newZone with
    | Some previousZone, Some newZone =>
        let exitEvent :=
          {| ev_type := exit; ev_zone := previousZone; ev_timestamp := timestamp |} in
        let enterEvent :=
          {| ev_type := enter; ev_zone := newZone; ev_timestamp := timestamp |} in
        {| pushed := [exitEvent; enterEvent]; primary := Some enterEvent;
           triggered := true;
           logged := Some (ExitedAndEntered vehicleId previousZone newZone) |}
    | Some previousZone, None =>
        let event :=
          {| ev_type := exit; ev_zone := previousZone; ev_timestamp := timestamp |} in
        {| pushed := [event]; primary := Some event; triggered := true;
           logged := Some (Exited vehicleId previousZone) |}
    | None, Some newZone =>
        let event :=
          {| ev_type := enter; ev_zone := newZone; ev_timestamp := timestamp |} in
        {| pushed := [event]; primary := Some event; triggered := true;
           logged := Some (Entered vehicleId newZone) |}
    | None, None => noChange
    end.

(** "Keep only recent events to manage memory". *)
Definition keepRecent (evs : list ZoneEvent) : list ZoneEvent :=
  if decide (MAX_EVENTS_PER_VEHICLE < length evs)
  then slice_last MAX_EVENTS_PER_VEHICLE evs
  else evs.

Definition geoPointOf (l : VehicleLocation) : GeoPoint :=
  {| latitude := loc_latitude l; longitude := loc_longitude l |}.

Definition logOptional (m : option Message) (w : World) : World :=
  match m with
  | Some m => logger.log m w
  | None => w
  end.

Definition storeSet (vehicleId : string) (vehicleData : VehicleData) (w : World) : World :=
  {| zones := zones w;
     vehicleStore := <[vehicleId := vehicleData]> (vehicleStore w);
     console := console w |}.

Definition trackVehicleLocation
    (vehicleId : string) (latitude longitude timestamp : number) (w : World)
    : TrackingResult * World :=
  let currentLocation := {| latitude := latitude; longitude := longitude |} in
  let previousData := vehicleStore w !! vehicleId in
  let previousLocation := location <$> previousData in
  (* Check for anomalous movements *)
  let w :=
    match previousLocation with
    | Some previous =>
        if isAnomalousMovement (Some (geoPointOf previous)) currentLocation
        then logger.warn
               (AnomalousMovement vehicleId (loc_latitude previous)
                  (loc_longitude previous) latitude longitude) w
        else w
    | None => w
    end in
  (* Find current zone *)
  let newZone := findCurrentZone currentLocation w in
  let previousZone := orNull (previousData ≫= (fun d => currentZone (location d))) in
  (* Track location *)
  let newLocation :=
    {| loc_vehicleId := vehicleId; loc_latitude := latitude;
       loc_longitude := longitude; loc_timestamp := timestamp;
       currentZone := newZone |} in
  (* Initialize or update vehicle data *)
  let vehicleData :=
    match vehicleStore w !! vehicleId with
    | None => {| location := newLocation; events := [] |}
    | Some vehicleData => {| location := newLocation; events := events vehicleData |}
    end in
  (* Check if zone changed *)
  let change := zoneChange vehicleId previousZone newZone timestamp in
  let vehicleData :=
    {| location := location vehicleData;
       events := events vehicleData ++ pushed change |} in
  let w := logOptional (logged change) w in
  (* Keep only recent events *)
  let vehicleData :=
    {| location := location vehicleData;
       events := keepRecent (events vehicleData) |} in
  (* Save updated data *)
  let w := storeSet vehicleId vehicleData w in
  ({| res_vehicleId := vehicleId; res_latitude := latitude;
      res_longitude := longitude; res_currentZone := newZone;
      eventTriggered := triggered change; event := primary change |}, w).

Definition getVehicleStatus (vehicleId : string) (w : World)
    : option VehicleStatus * World :=
  match vehicleStore w !! vehicleId with
  | None => (None, w)
  | Some vehicleData =>
      (Some {| st_vehicleId := vehicleId;
               st_currentZone := orNull (currentZone (location vehicleData));
               lastLocationUpdate := loc_timestamp (location vehicleData);
               lastLocation :=
                 {| latitude := loc_latitude (location vehicleData);
                    longitude := loc_longitude (location vehicleData) |};
               recentEvents := slice_last 10 (events vehicleData);
               totalEventsTracked := length (events vehicleData) |}, w)
  end.

Definition clearAllVehicleData (w : World) : World :=
  logger.log AllCleared
    {| zones := zones w; vehicleStore := ∅; console := console w |}.

(** ** Runs of the tracker *)

(** The stored event history of a vehicle, empty when it is not tracked. *)
Definition history (vehicleId : string) (w : World) : list ZoneEvent :=
  match vehicleStore w !! vehicleId with
  | Some d => events d
  | None => []
  end.

(** The stored zone of a vehicle as the field holds it. *)
Definition storedZone (vehicleId : string) (w : World) : option string :=
  vehicleStore w !! vehicleId ≫= (fun d => currentZone (location d)).

Record Call : Set := mkCall {
  call_vehicleId : string;
  call_latitude : number;
  call_longitude : number;
  call_timestamp : number
}.

Definition track (c : Call) (w : World) : TrackingResult * World :=
  trackVehicleLocation (call_vehicleId c) (call_latitude c) (call_longitude c)
    (call_timestamp c) w.

Definition callPoint (c : Call) : GeoPoint :=
  {| latitude := call_latitude c; longitude := call_longitude c |}.

Fixpoint trackAll (calls : list Call) (w : World) : list TrackingResult * World :=
  match calls with
  | [] => ([], w)
  | c :: rest =>
      let '(r, w1) := track c w in
      let '(rs, w2) := trackAll rest w1 in
      (r :: rs, w2)
  end.

Inductive Action : Set :=
  | Track (c : Call)
  | Reset.

Definition perform (a : Action) (w : World) : World :=
  match a with
  | Track c => snd (track c w)
  | Reset => clearAllVehicleData w
  end.

Fixpoint run (acts : list Action) (w : World) : World :=
  match acts with
  | [] => w
  | a :: rest => run rest (perform a w)
  end.

(** A process that starts with catalog [zs] and nothing tracked. *)
Definition startWith (zs : list Zone) : World :=
  {| zones := zs; vehicleStore := ∅; console := [] |}.

#[global] Arguments isAnomalousMovement : simpl never.
#[global] Arguments findCurrentZone : simpl never.
#[global] Arguments zoneChange : simpl never.
#[global] Arguments keepRecent : simpl never.
#[global] Arguments orNull : simpl never.
#[global] Arguments trackVehicleLocation : simpl never.
#[global] Arguments track : simpl never.
#[global] Arguments clearAllVehicleData : simpl never.

(** ** Vocabulary of the statements *)

(** The ray-casting loop read as a walk along the edges of the closed ring:
    each vertex paired with the one before it, the first with the last. *)
Definition edgeCrossed (x y : number) (vi vj : number * number) : bool :=
  let '(xi, yi) := vi in
  let '(xj, yj) := vj in
  xorb (y <? yi)%float (y <? yj)%float
  && (x <? ((xj - xi) * (y - yi)) / (yj - yi) + xi)%float.

Definition edgeStep (x y : number) (st : (number * number) * bool)
    (vi : number * number) : (number * number) * bool :=
  (vi, if edgeCrossed x y vi st.1 then negb st.2 else st.2).

Definition castAlongEdges (x y : number) (vertices : list (number * number)) : bool :=
  match last vertices with
  | None => false
  | Some vlast => snd (fold_left (edgeStep x y) vertices (vlast, false))
  end.

(** The events a call pushes on its vehicle's history. *)
Definition appended (c : Call) (w : World) : list ZoneEvent :=
  pushed (zoneChange (call_vehicleId c)
            (orNull (storedZone (call_vehicleId c) w))
            (findCurrentZone (callPoint c) w) (call_timestamp c)).

(** Everything a run of calls pushes on the history of [vehicleId], oldest
    first, and how many of its calls were zone transitions. *)
Fixpoint appendedFor (vehicleId : string) (calls : list Call) (w : World)
    : list ZoneEvent :=
  match calls with
  | [] => []
  | c :: rest =>
      (if decide (call_vehicleId c = vehicleId) then appended c w else [])
      ++ appendedFor vehicleId rest (snd (track c w))
  end.


(** Whether [vehicleId] is tracked after [acts], given whether it was
    before: a report for it tracks it, a reset forgets everything. *)
Fixpoint trackedAfter (vehicleId : string) (acts : list Action) (before : bool) : bool :=
  match acts with
  | [] => before
  | Track c :: rest =>
      trackedAfter vehicleId rest (before || bool_decide (call_vehicleId c = vehicleId))
  | Reset :: rest => trackedAfter vehicleId rest false
  end.

(** History and stored zone agree: in a zone, the history is not empty and
    its latest event is the entry into that zone; outside every zone, the
    latest event, if there is one, is an exit. *)
Definition coherentWith (z : option string) (latest : option ZoneEvent) : Prop :=
  match z with
  | Some z => ∃ e, latest = Some e ∧ ev_type e = enter ∧ ev_zone e = z
  | None => ∀ e, latest = Some e → ev_type e = exit
  end.

Definition coherent (d : VehicleData) : Prop :=
  coherentWith (currentZone (location d)) (last (events d)).

(** What every step of a run under catalog [zs] keeps: the catalog, and for
    every tracked vehicle a stored zone with a name and a history that
    agrees with it. *)
Definition sound (zs : list Zone) (w : World) : Prop :=
  zones w = zs
  ∧ ∀ v d, vehicleStore w !! v = Some d →
           currentZone (location d) ≠ Some EmptyString ∧ coherent d.

(** A call that, if it is for [vehicleId], reports [(lat, lon)]; and a
    result that, if the call is for [vehicleId], carries no event. *)
Definition sameReport (vehicleId : string) (lat lon : number) (c : Call) : Prop :=
  call_vehicleId c = vehicleId → call_latitude c = lat ∧ call_longitude c = lon.

Definition silent (vehicleId : string) (c : Call) (r : TrackingResult) : Prop :=
  call_vehicleId c = vehicleId → eventTriggered r = false ∧ event r = None.

(** Whether a report is an anomalous jump from the stored location. *)
Definition anomalousJump (vehicleId : string) (latitude longitude : number)
    (w : World) : bool :=
  match vehicleStore w !! vehicleId with
  | Some d =>
      isAnomalousMovement (Some (geoPointOf (location d)))
        {| latitude := latitude; longitude := longitude |}
  | None => false
  end.

(** The world in which the stored position of a tracked vehicle is
    elsewhere, everything else the same. *)
Definition relocated (vehicleId : string) (latitude longitude : number)
    (w : World) : World :=
  match vehicleStore w !! vehicleId with
  | Some d =>
      storeSet vehicleId
        {| location :=
             {| loc_vehicleId := loc_vehicleId (location d);
                loc_latitude := latitude; loc_longitude := longitude;
                loc_timestamp := loc_timestamp (location d);
                currentZone := currentZone (location d) |};
           events := events d |} w
  | None => w
  end.

(** ** Sample worlds *)

(** A catalog, built with [addZone], one of whose zones has the empty
    string as its name. *)
Definition unnamedZone : Zone :=
  {| zone_id := "z0"; name := EmptyString; description := "unnamed"; type := circle;
     coordinates := None; center := Some (0, 0)%float; radius := Some 1%float |}.

Definition zoneA : Zone :=
  {| zone_id := "a"; name := "A"; description := "zone A"; type := circle;
     coordinates := None; center := Some (10, 10)%float; radius := Some 1%float |}.

Definition unnamedCatalog : World :=
  addZone zoneA (addZone unnamedZone initialWorld).


(** Vehicle "t1" reported once, at the Downtown vertex, under the
    predefined catalog; and the Harbor vertex it may go to next. *)
Definition inDowntown : World :=
  snd (trackVehicleLocation "t1" 40.7128%float (-74.0060)%float 1%float
         (initializeZones initialWorld)).

Definition harborVertex : GeoPoint :=
  {| latitude := 40.6995%float; longitude := (-74.0087)%float |}.

(** Two more reports of "t1" at the Downtown vertex, with other timestamps,
    and a report of another vehicle in between. *)
Definition downtownAgain : list Call :=
  [ mkCall "t1" 40.7128 (-74.0060) 5; mkCall "t2" 40.6995 (-74.0087) 6;
    mkCall "t1" 40.7128 (-74.0060) 4 ]%float.

(** What the store holds for "t1" in [inDowntown]. *)
Definition downtownData : VehicleData :=
  {| location :=
       {| loc_vehicleId := "t1"; loc_latitude := 40.7128%float;
          loc_longitude := (-74.0060)%float; loc_timestamp := 1%float;
          currentZone := Some "Downtown" |};
     events := [mkZoneEvent enter "Downtown" 1%float] |}.

(** The catalog with zone A alone. *)
Definition catalogA : World := addZone zoneA initialWorld.



(** A vehicle that goes in and out of zone A: 26 round trips, the calls
    stamped 0, 1, 2, ... *)
Fixpoint stamp (n : nat) : number :=
  match n with
  | 0 => 0%float
  | S k => (stamp k + 1)%float
  end.

Definition roundTrips : list Call :=
  flat_map (fun k : nat =>
              [ mkCall "v" 10%float 10%float (stamp (2 * k));
                mkCall "v" 50%float 50%float (stamp (2 * k + 1)) ]) (seq 0 26).

(** ** config/zones.ts: lookup and removal *)

Definition getZoneById (zoneId : string) (w : World) : option Zone :=
  find (fun z => String.eqb (zone_id z) zoneId) (zones w).

Definition getZoneByName (zoneName : string) (w : World) : option Zone :=
  find (fun z => String.eqb (name z) zoneName) (zones w).

(** [removeZone] logs "Removed zone: id", a line the console of [World]
    has no message for: the line is returned beside the new world. *)
Inductive RemovalLine : Set := RemovedZone (zoneId : string).

Definition removeZone (zoneId : string) (w : World) : World * RemovalLine :=
  ({| zones := filter (fun z => zone_id z ≠ zoneId) (zones w);
      vehicleStore := vehicleStore w; console := console w |},
   RemovedZone zoneId).

Definition getZoneCount (w : World) : nat := length (zones w).

(** The administration of the catalog. *)
Inductive CatalogOp : Set :=
  | Initialize
  | Add (zone : Zone)
  | Remove (zoneId : string).

Definition administer (op : CatalogOp) (w : World) : World :=
  match op with
  | Initialize => initializeZones w
  | Add zone => addZone zone w
  | Remove zoneId => fst (removeZone zoneId w)
  end.

Definition administerAll (ops : list CatalogOp) (w : World) : World :=
  fold_left (fun w op => administer op w) ops w.

(** ** services/vehicleTracker.ts: listings

    A JS [Map] iterates its keys in insertion order, which the [gmap] of
    [World] does not record: the listings take the keys in that order.
    [keysAfter] is the order a run of reports and resets leaves: a report of
    a vehicle not yet tracked adds its id at the end, a reset empties it. *)

Fixpoint keysAfter (acts : list Action) (keys : list string) : list string :=
  match acts with
  | [] => keys
  | Track c :: rest =>
      keysAfter rest
        (if bool_decide (call_vehicleId c ∈ keys) then keys
         else keys ++ [call_vehicleId c])
  | Reset :: rest => keysAfter rest []
  end.

Definition getAllTrackedVehicles (keys : list string) (w : World)
    : list VehicleStatus :=
  omap (fun vehicleId => fst (getVehicleStatus vehicleId w)) keys.

Definition getVehiclesInZone (zoneName : string) (keys : list string) (w : World)
    : list VehicleStatus :=
  filter (fun v => st_currentZone v = Some zoneName)
    (getAllTrackedVehicles keys w).

(** Two events that may stand next to each other in a history: an entry is
    followed by the exit from the same zone, an exit by an entry. *)
Definition follows (e1 e2 : ZoneEvent) : Prop :=
  match ev_type e1 with
  | enter => ev_type e2 = exit ∧ ev_zone e2 = ev_zone e1
  | exit => ev_type e2 = enter
  end.

Fixpoint alternating (evs : list ZoneEvent) : Prop :=
  match evs with
  | e1 :: rest =>
      match rest with
      | e2 :: _ => follows e1 e2 ∧ alternating rest
      | [] => True
      end
  | [] => True
  end.

(** ** utils/validator.ts

    The request fields arrive as whatever JSON the client sent, and the
    validator tests them with [typeof], [isNaN] and truthiness: they are
    values of [JsValue].  [String.prototype.trim] is the engine's; it is a
    parameter [trim] of the functions that call it. *)

Inductive JsValue : Set :=
  | JsUndefined
  | JsNull
  | JsBoolean (b : bool)
  | JsNumber (n : number)
  | JsString (s : string)
  | JsObject.

Definition isNaN (n : number) : bool := negb (n =? n)%float.

(** [!!value]. *)
Definition truthy (value : JsValue) : bool :=
  match value with
  | JsUndefined | JsNull => false
  | JsBoolean b => b
  | JsNumber n => negb (n =? 0)%float && negb (isNaN n)
  | JsString s => negb (String.eqb s EmptyString)
  | JsObject => true
  end.

(** [value === undefined || value === null]. *)
Definition missing (value : JsValue) : bool :=
  match value with
  | JsUndefined | JsNull => true
  | _ => false
  end.

Record ValidationResult : Set := mkValidationResult {
  valid : bool;
  error : option string
}.

Definition rejected (message : string) : ValidationResult :=
  {| valid := false; error := Some message |}.

Section Validator.
Variable trim : string → string.

Definition validateLocationInput (vehicleId latitude longitude : JsValue)
    : ValidationResult :=
  if negb (truthy vehicleId) then rejected "vehicleId is required"
  else if missing latitude then rejected "latitude is required"
  else if missing longitude then rejected "longitude is required"
  else
    match vehicleId with
    | JsString s =>
        if String.length (trim s) =? 0
        then rejected "vehicleId must be a non-empty string"
        else
          match latitude with
          | JsNumber lat =>
              if isNaN lat then rejected "latitude must be a valid number"
              else if (lat <? -90)%float || (90 <? lat)%float
              then rejected "Invalid latitude. Must be between -90 and 90"
              else
                match longitude with
                | JsNumber lon =>
                    if isNaN lon then rejected "longitude must be a valid number"
                    else if (lon <? -180)%float || (180 <? lon)%float
                    then rejected "Invalid longitude. Must be between -180 and 180"
                    else {| valid := true; error := None |}
                | _ => rejected "longitude must be a valid number"
                end
          | _ => rejected "latitude must be a valid number"
          end
    | _ => rejected "vehicleId must be a non-empty string"
    end.

Definition isValidVehicleId (vehicleId : JsValue) : bool :=
  match vehicleId with
  | JsString s => 0 <? String.length (trim s)
  | _ => false
  end.

Definition isValidGpsCoordinates (latitude longitude : JsValue) : bool :=
  match latitude, longitude with
  | JsNumber lat, JsNumber lon =>
      negb (isNaN lat) && (-90 <=? lat)%float && (lat <=? 90)%float
      && negb (isNaN lon) && (-180 <=? lon)%float && (lon <=? 180)%float
  | _, _ => false
  end.

(** ** src/index.ts: the route that reports a location

    The handler takes the request and the world; [Date.now()] is the
    argument [now].  The request has a body, and [req.body] is untyped:
    each of the four fields read from it is any JSON value, or absent.  The
    validator is given the id and the coordinates; nothing checks the
    timestamp. *)

Record LocationBody : Set := mkLocationBody {
  body_vehicleId : JsValue;
  body_latitude : JsValue;
  body_longitude : JsValue;
  body_timestamp : JsValue
}.

Inductive Payload : Set :=
  | Failure (message : option string)
  | LocationData (vehicleId : string) (latitude longitude : number)
      (currentZone : string) (eventTriggered : bool) (event : option ZoneEvent).

Record Response : Set := mkResponse {
  statusCode : nat;
  success : bool;
  payload : Payload
}.

(** [timestamp || Date.now()]: the body's timestamp when it is truthy,
    whatever its type. *)
Definition timestampOr (now : number) (timestamp : JsValue) : JsValue :=
  if truthy timestamp then timestamp else JsNumber now.

(** What the handler has done with a request.  Either it has sent a
    response and left a world; or it has called [trackVehicleLocation] with
    a timestamp that is not a number (a string, [true], an object), which
    [timestamp || Date.now()] lets through.  The tracker is embedded at the
    declared type [number] of its parameter, so a call outside that type
    is recorded with its arguments and the world it is made in, and is
    followed no further. *)
Inductive Handled : Type :=
  | Answered (response : Response) (w : World)
  | TrackedUntyped (vehicleId : string) (latitude longitude : number)
      (timestamp : JsValue) (w : World).

(** [app.post('/api/location', ...)].  The fields of an accepted body are
    a string and two numbers, so the last branch is never taken; it is the
    handler's [catch]. *)
Definition postLocation (now : number) (body : LocationBody) (w : World)
    : Handled :=
  let validation :=
    validateLocationInput (body_vehicleId body) (body_latitude body)
      (body_longitude body) in
  if negb (valid validation)
  then Answered {| statusCode := 400; success := false;
                   payload := Failure (error validation) |} w
  else
    match body_vehicleId body, body_latitude body, body_longitude body with
    | JsString vehicleId, JsNumber latitude, JsNumber longitude =>
        match timestampOr now (body_timestamp body) with
        | JsNumber timestamp =>
            let '(result, w) :=
              trackVehicleLocation vehicleId latitude longitude timestamp w in
            Answered
              {| statusCode := 200; success := true;
                 payload :=
                   LocationData (res_vehicleId result) (res_latitude result)
                     (res_longitude result)
                     (default "Outside all zones" (orNull (res_currentZone result)))
                     (eventTriggered result) (event result) |} w
        | timestamp =>
            TrackedUntyped vehicleId latitude longitude timestamp w
        end
    | _, _, _ =>
        Answered {| statusCode := 500; success := false;
                    payload := Failure (Some "Failed to process location update") |}
          w
    end.

End Validator.

#[global] Arguments removeZone : simpl never.

(** A trim that strips spaces, for the samples. *)
Fixpoint dropSpaces (s : string) : string :=
  match s with
  | String a rest =>
      if Ascii.eqb a (Ascii.ascii_of_nat 32) then dropSpaces rest else s
  | EmptyString => s
  end.

(** ** Further sample data *)

(** A second zone named Downtown, under an id of its own. *)
Definition downtownAnnex : Zone :=
  {| zone_id := "annex"; name := "Downtown"; description := "second Downtown";
     type := circle; coordinates := None;
     center := Some (41, -74)%float; radius := Some 0.5%float |}.

(** What the store holds for "t1" after the Downtown vertex and then the
    Harbor vertex. *)
Definition downtownToHarbor : list Action :=
  [ Track (mkCall "t1" 40.7128 (-74.0060) 1);
    Track (mkCall "t1" 40.6995 (-74.0087) 3) ]%float.

Definition harborData : VehicleData :=
  {| location :=
       {| loc_vehicleId := "t1"; loc_latitude := 40.6995%float;
          loc_longitude := (-74.0087)%float; loc_timestamp := 3%float;
          currentZone := Some "Harbor" |};
     events := [ mkZoneEvent enter "Downtown" 1%float;
                 mkZoneEvent exit "Downtown" 3%float;
                 mkZoneEvent enter "Harbor" 3%float ] |}.

(** A request body for "t1" at the Downtown vertex, without a timestamp. *)
Definition downtownBody : LocationBody :=
  {| body_vehicleId := JsString "t1"; body_latitude := JsNumber 40.7128%float;
     body_longitude := JsNumber (-74.0060)%float; body_timestamp := JsUndefined |}.

(** The same report with a timestamp that is a string. *)
Definition yesterdayBody : LocationBody :=
  {| body_vehicleId := JsString "t1"; body_latitude := JsNumber 40.7128%float;
     body_longitude := JsNumber (-74.0060)%float;
     body_timestamp := JsString "yesterday" |}.

(** Two reports of "v" inside the zone named by the empty string, and what
    the store then holds for "v". *)
Definition twiceInUnnamed : list Action :=
  [ Track (mkCall "v" 0 0 1); Track (mkCall "v" 0 0 2) ]%float.

Definition unnamedData : VehicleData :=
  {| location :=
       {| loc_vehicleId := "v"; loc_latitude := 0%float;
          loc_longitude := 0%float; loc_timestamp := 2%float;
          currentZone := Some EmptyString |};
     events := [ mkZoneEvent enter EmptyString 1%float;
                 mkZoneEvent enter EmptyString 2%float ] |}.

(** Every vehicle stored in a zone has the entry into that zone as its
    latest event. *)
Definition enteredLatest (w : World) : Prop :=
  ∀ v d z, vehicleStore w !! v = Some d → currentZone (location d) = Some z →
           ∃ e, last (events d) = Some e ∧ ev_type e = enter ∧ ev_zone e = z.

(** An accepted report is stamped [timestamp]: the handler has answered,
    the store it left holds that timestamp for the vehicle, and every
    stored event that was not in the history before carries it. *)
Definition stampedWith (vehicleId : string) (timestamp : number) (before : World)
    (handled : Handled) : Prop :=
  ∃ response w d,
    handled = Answered response w
    ∧ statusCode response = 200
    ∧ vehicleStore w !! vehicleId = Some d
    ∧ loc_timestamp (location d) = timestamp
    ∧ ∀ e, e ∈ events d → e ∈ history vehicleId before ∨ ev_timestamp e = timestamp.

(** ** Vocabulary of the further statements *)

(** The parity of the edges crossed along a path of vertices that starts
    after [previous]. *)
Fixpoint crossings (x y : number) (previous : number * number)
    (vertices : list (number * number)) : bool :=
  match vertices with
  | [] => false
  | v :: rest => xorb (edgeCrossed x y v previous) (crossings x y v rest)
  end.

(** A binary64 value that is not below zero: a zero, a positive number,
    plus infinity, or not a number. *)
Definition notNegative (f : spec_float) : Prop :=
  match f with
  | S754_zero _ | S754_nan => True
  | S754_infinity s | S754_finite s _ _ => s = false
  end.

(** * Geofence engine *)

Section Geofence.
Implicit Types (point : GeoPoint) (zs : list Zone).

Lemma firstZoneContaining_Some point zs n :
  firstZoneContaining point zs = Some n ↔
  ∃ i zone, zs !! i = Some zone ∧ isPointInZone point zone = true ∧ name zone = n ∧
            ∀ j earlier, j < i → zs !! j = Some earlier →
                         isPointInZone point earlier = false.
Proof.
  induction zs as [|z zs IH]; simpl.
  - split; [discriminate | intros (i & zone & Hi & _); by destruct i].
  - destruct (isPointInZone point z) eqn:Hz.
    + split.
      * intros [= <-]. exists 0, z. repeat split; auto. intros; lia.
      * intros (i & zone & Hi & Hin & Hn & Hfirst). destruct i as [|i].
        -- simpl in Hi. congruence.
        -- specialize (Hfirst 0 z ltac:(lia) eq_refl). congruence.
    + rewrite IH. split.
      * intros (i & zone & Hi & Hin & Hn & Hfirst).
        exists (S i), zone. repeat split; auto.
        intros [|j] earlier Hj Hl; simpl in Hl; [congruence|].
        apply (Hfirst j); [lia | done].
      * intros (i & zone & Hi & Hin & Hn & Hfirst). destruct i as [|i].
        -- simpl in Hi. congruence.
        -- exists i, zone. repeat split; auto.
           intros j earlier Hj Hl. apply (Hfirst (S j)); [lia | done].
Qed.

Lemma firstZoneContaining_None point zs :
  firstZoneContaining point zs = None ↔
  ∀ zone, zone ∈ zs → isPointInZone point zone = false.
Proof.
  induction zs as [|z zs IH]; simpl.
  - split; [intros _ zone Hin; by apply elem_of_nil in Hin | done].
  - destruct (isPointInZone point z) eqn:Hz.
    + split; [discriminate|]. intros H.
      specialize (H z ltac:(left)). congruence.
    + rewrite IH. split.
      * intros H zone [->|Hin]%elem_of_cons; auto.
      * intros H zone Hin. apply H. by right.
Qed.

Lemma firstZoneContaining_named point zs n :
  firstZoneContaining point zs = Some n → ∃ zone, zone ∈ zs ∧ name zone = n.
Proof.
  intros (i & zone & Hi & _ & Hn & _)%firstZoneContaining_Some.
  exists zone. split; [by eapply list_elem_of_lookup_2 | done].
Qed.
End Geofence.

(** The index loop never reads outside the array: it is the walk along the
    edges of the ring. *)
Lemma rayCasting_edges (x y : number) (before rest : list (number * number))
    (j : nat) (vj : number * number) (inside : bool) :
  (before ++ rest) !! j = Some vj →
  snd (fold_left (rayCastingStep x y (before ++ rest))
         (seq (length before) (length rest)) (j, inside)) =
  snd (fold_left (edgeStep x y) rest (vj, inside)).
Proof.
  revert before j vj inside.
  induction rest as [|vi rest IH]; intros before j vj inside Hj; [done|].
  cbn [length seq fold_left]. unfold rayCastingStep at 2.
  rewrite (list_lookup_middle before rest vi) by done.
  destruct vi as [xi yi]. rewrite Hj. destruct vj as [xj yj].
  replace (before ++ (xi, yi) :: rest) with ((before ++ [(xi, yi)]) ++ rest)
    by (by rewrite <- app_assoc).
  replace (S (length before)) with (length (before ++ [(xi, yi)]))
    by (rewrite length_app; simpl; lia).
  rewrite (IH _ _ (xi, yi)); [done|].
  rewrite <- app_assoc. by apply list_lookup_middle.
Qed.

Lemma isPointInPolygon_edges (point : GeoPoint) (vertices : list (number * number)) :
  isPointInPolygon point vertices =
  castAlongEdges (latitude point) (longitude point) vertices.
Proof.
  unfold isPointInPolygon, castAlongEdges.
  destruct (last vertices) as [vlast|] eqn:Hlast.
  - apply (rayCasting_edges _ _ [] vertices). simpl.
    rewrite last_lookup in Hlast. by rewrite Nat.sub_1_r.
  - apply last_None in Hlast. by subst.
Qed.

(** IEEE comparisons, from the specification of the primitive operations. *)
Lemma float_eqb_leb (a b : number) :
  (a =? b)%float = true → (a <=? b)%float = true.
Proof.
  intros H. rewrite FloatAxioms.eqb_spec in H. rewrite FloatAxioms.leb_spec.
  unfold SFeqb, SFleb in *. by destruct (SFcompare _ _) as [[]|].
Qed.

Lemma SFcompare_antisym (a b : spec_float) :
  SFcompare b a = CompOpp <$> SFcompare a b.
Proof.
  destruct a as [s1|s1| |s1 m1 e1], b as [s2|s2| |s2 m2 e2]; simpl;
    try done; try (by destruct s1); try (by destruct s2);
    try (by destruct s1, s2).
  f_equal. rewrite (Z.compare_antisym e1 e2).
  change (Pos.compare_cont Eq m2 m1) with (m2 ?= m1)%positive.
  change (Pos.compare_cont Eq m1 m2) with (m1 ?= m2)%positive.
  rewrite (Pos.compare_antisym m1 m2).
  by destruct s1, s2, (e1 ?= e2)%Z, (m1 ?= m2)%positive.
Qed.

Lemma float_ltb_not_leb (a b : number) :
  (b <? a)%float = true → (a <=? b)%float = false.
Proof.
  intros H. rewrite FloatAxioms.ltb_spec in H. rewrite FloatAxioms.leb_spec.
  unfold SFltb, SFleb in *. rewrite SFcompare_antisym in H.
  by destruct (SFcompare _ _) as [[]|].
Qed.

Lemma float_leb_cases (a b : number) :
  (a <=? b)%float = true ↔ (a <? b)%float = true ∨ (a =? b)%float = true.
Proof.
  rewrite FloatAxioms.leb_spec, FloatAxioms.ltb_spec, FloatAxioms.eqb_spec.
  unfold SFleb, SFltb, SFeqb. destruct (SFcompare _ _) as [[]|]; intuition congruence.
Qed.

(** C7: [isPointInCircle] answers true exactly when the distance the engine
    computes, the square root of the sum of the squared coordinate
    differences, is at most the radius; a distance equal to the radius is
    inside, a distance above it is outside. *)
Theorem isPointInCircle_iff_within_radius
    (point : GeoPoint) (c : number * number) (r : number) :
  let distance :=
    calculateDistance point {| latitude := c.1; longitude := c.2 |} in
  distance =
    PrimFloat.sqrt ((latitude point - c.1) * (latitude point - c.1)
                    + (longitude point - c.2) * (longitude point - c.2))%float
  ∧ (isPointInCircle point c r = true ↔ (distance <=? r)%float = true)
  ∧ (isPointInCircle point c r = true ↔
     (distance <? r)%float = true ∨ (distance =? r)%float = true)
  ∧ ((distance =? r)%float = true → isPointInCircle point c r = true)
  ∧ ((r <? distance)%float = true → isPointInCircle point c r = false).
Proof.
  intros distance. unfold isPointInCircle. fold distance.
  split; [reflexivity|]. split; [reflexivity|]. split; [|split].
  - apply float_leb_cases.
  - apply float_eqb_leb.
  - apply float_ltb_not_leb.
Qed.

(** The 3-4-5 triangle: a point at distance exactly 5 from the origin is
    inside the circle of radius 5, a point slightly farther is outside. *)
Lemma isPointInCircle_iff_within_radius_witness :
  ((calculateDistance (mkGeoPoint 3 4) (mkGeoPoint 0 0) =? 5) = true
   ∧ isPointInCircle (mkGeoPoint 3 4) (0, 0) 5 = true)%float
  ∧ ((5 <? calculateDistance (mkGeoPoint 3 4.000001) (mkGeoPoint 0 0)) = true
     ∧ isPointInCircle (mkGeoPoint 3 4.000001) (0, 0) 5 = false)%float.
Proof.
  destruct (isPointInCircle_iff_within_radius
              (mkGeoPoint 3 4)%float (0, 0)%float 5%float)
    as (_ & _ & _ & Hon & _).
  destruct (isPointInCircle_iff_within_radius
              (mkGeoPoint 3 4.000001)%float (0, 0)%float 5%float)
    as (_ & _ & _ & _ & Hout).
  split; split.
  - vm_compute. reflexivity.
  - apply Hon. vm_compute. reflexivity.
  - vm_compute. reflexivity.
  - apply Hout. vm_compute. reflexivity.
Defined.

Example square_polygon :
  (isPointInPolygon (mkGeoPoint 1 1) [(0, 0); (0, 2); (2, 2); (2, 0)] = true
   ∧ isPointInPolygon (mkGeoPoint 3 3) [(0, 0); (0, 2); (2, 2); (2, 0)] = false)%float.
Proof. by vm_compute. Qed.

(** * Vehicle tracker: what one call does *)

Section OneCall.
Variables (vehicleId : string) (lat lon timestamp : number).
Variable w : World.

Local Abbreviation point := {| latitude := lat; longitude := lon |}.
Local Abbreviation change :=
  (zoneChange vehicleId (orNull (storedZone vehicleId w))
     (findCurrentZone point w) timestamp).

Lemma trackVehicleLocation_result :
  fst (trackVehicleLocation vehicleId lat lon timestamp w) =
  {| res_vehicleId := vehicleId; res_latitude := lat;
     res_longitude := lon; res_currentZone := findCurrentZone point w;
     eventTriggered := triggered change; event := primary change |}.
Proof.
  unfold trackVehicleLocation, storedZone.
  destruct (vehicleStore w !! vehicleId) as [d|]; simpl; [|done].
  by destruct (isAnomalousMovement _ _).
Qed.

Lemma trackVehicleLocation_store :
  vehicleStore (snd (trackVehicleLocation vehicleId lat lon timestamp w)) =
  <[vehicleId :=
      {| location :=
           {| loc_vehicleId := vehicleId; loc_latitude := lat;
              loc_longitude := lon; loc_timestamp := timestamp;
              currentZone := findCurrentZone point w |};
         events := keepRecent (history vehicleId w ++ pushed change) |}]>
    (vehicleStore w).
Proof.
  unfold trackVehicleLocation, storedZone, history.
  destruct (vehicleStore w !! vehicleId) as [d|] eqn:Hd; simpl.
  - destruct (isAnomalousMovement _ _); simpl; rewrite ?Hd; simpl;
      by destruct (logged _).
  - rewrite ?Hd. simpl. by destruct (logged _).
Qed.

Lemma trackVehicleLocation_zones :
  zones (snd (trackVehicleLocation vehicleId lat lon timestamp w)) =
  zones w.
Proof.
  unfold trackVehicleLocation.
  destruct (vehicleStore w !! vehicleId) as [d|]; simpl.
  - destruct (isAnomalousMovement _ _); simpl; by destruct (logged _).
  - by destruct (logged _).
Qed.

Lemma trackVehicleLocation_console :
  console (snd (trackVehicleLocation vehicleId lat lon timestamp w)) =
  (console w
  ++ (if anomalousJump vehicleId lat lon w
      then [(WARN, AnomalousMovement vehicleId
                     (from_option (loc_latitude ∘ location) lat
                        (vehicleStore w !! vehicleId))
                     (from_option (loc_longitude ∘ location) lon
                        (vehicleStore w !! vehicleId))
                     lat lon)]
      else [])
  ++ (match logged change with Some m => [(INFO, m)] | None => [] end))%list.
Proof.
  unfold trackVehicleLocation, storedZone, anomalousJump.
  destruct (vehicleStore w !! vehicleId) as [d|]; simpl.
  - destruct (isAnomalousMovement _ _); simpl;
      destruct (logged _); simpl; by rewrite <- ?app_assoc, ?app_nil_r.
  - destruct (logged _); simpl; by rewrite ?app_nil_r.
Qed.

Lemma trackVehicleLocation_history :
  history vehicleId
    (snd (trackVehicleLocation vehicleId lat lon timestamp w)) =
  keepRecent (history vehicleId w ++ pushed change).
Proof.
  unfold history at 1. by rewrite trackVehicleLocation_store, lookup_insert_eq.
Qed.

Lemma trackVehicleLocation_storedZone :
  storedZone vehicleId
    (snd (trackVehicleLocation vehicleId lat lon timestamp w)) =
  findCurrentZone point w.
Proof.
  unfold storedZone. by rewrite trackVehicleLocation_store, lookup_insert_eq.
Qed.

Lemma trackVehicleLocation_other (other : string) :
  vehicleId ≠ other →
  vehicleStore (snd (trackVehicleLocation vehicleId lat lon timestamp w))
    !! other = vehicleStore w !! other.
Proof. intros Hne. by rewrite trackVehicleLocation_store, lookup_insert_ne. Qed.
End OneCall.

(** * Bounded history *)

Section BoundedHistory.
Context {A : Type}.
Implicit Types (l older newer : list A) (n : nat).

Lemma length_slice_last n l : length (slice_last n l) = length l `min` n.
Proof. unfold slice_last. rewrite length_drop. lia. Qed.

Lemma slice_last_short n l : length l ≤ n → slice_last n l = l.
Proof.
  intros H. unfold slice_last. by replace (length l - n) with 0 by lia.
Qed.

(** What [slice_last] cuts off is a prefix: the oldest entries. *)
Lemma slice_last_oldest_dropped n l :
  l = take (length l - n) l ++ slice_last n l.
Proof. unfold slice_last. by rewrite take_drop. Qed.

Lemma slice_last_app_newer n older newer :
  length newer ≤ n →
  slice_last n (older ++ newer) =
  drop (length (older ++ newer) - n) older ++ newer.
Proof.
  intros H. unfold slice_last. rewrite drop_app, length_app.
  by replace (length older + length newer - n - length older) with 0 by lia.
Qed.


Lemma last_slice_last n l : 0 < n → last (slice_last n l) = last l.
Proof.
  intros Hn. unfold slice_last. rewrite !last_lookup, lookup_drop, length_drop.
  destruct (decide (length l = 0)) as [H0|H0].
  - apply nil_length_inv in H0. by subst.
  - f_equal. lia.
Qed.
End BoundedHistory.

Lemma keepRecent_slice_last evs :
  keepRecent evs = slice_last MAX_EVENTS_PER_VEHICLE evs.
Proof.
  unfold keepRecent. case_decide; [done|].
  symmetry. apply slice_last_short. lia.
Qed.

Lemma length_keepRecent evs : length (keepRecent evs) ≤ MAX_EVENTS_PER_VEHICLE.
Proof. rewrite keepRecent_slice_last, length_slice_last. lia. Qed.

Lemma keepRecent_short evs :
  length evs ≤ MAX_EVENTS_PER_VEHICLE → keepRecent evs = evs.
Proof. rewrite keepRecent_slice_last. apply slice_last_short. Qed.

Lemma last_keepRecent evs : last (keepRecent evs) = last evs.
Proof.
  rewrite keepRecent_slice_last. apply last_slice_last.
  unfold MAX_EVENTS_PER_VEHICLE. lia.
Qed.

Lemma keepRecent_app_newer older newer :
  length newer ≤ MAX_EVENTS_PER_VEHICLE →
  keepRecent (older ++ newer) =
  drop (length (older ++ newer) - MAX_EVENTS_PER_VEHICLE) older ++ newer.
Proof. rewrite keepRecent_slice_last. apply slice_last_app_newer. Qed.

(** * Zone resolution *)

(** C3: the zone a call resolves is the name of the first zone of the
    catalog, in catalog order, that contains the point, and none exactly
    when no zone of the catalog contains it. *)
Theorem findCurrentZone_first_match
    (vehicleId : string) (lat lon timestamp : number) (w : World) :
  let point := {| latitude := lat; longitude := lon |} in
  let resolved :=
    res_currentZone (fst (trackVehicleLocation vehicleId lat lon timestamp w)) in
  resolved = findCurrentZone point w
  ∧ (∀ n, resolved = Some n ↔
          ∃ i zone, zones w !! i = Some zone
                    ∧ isPointInZone point zone = true ∧ name zone = n
                    ∧ ∀ j earlier, j < i → zones w !! j = Some earlier →
                                   isPointInZone point earlier = false)
  ∧ (resolved = None ↔ ∀ zone, zone ∈ zones w → isPointInZone point zone = false).
Proof.
  intros point resolved.
  assert (resolved = firstZoneContaining point (zones w)) as ->.
  { unfold resolved. by rewrite trackVehicleLocation_result. }
  split; [done|]. split.
  - intros n. apply firstZoneContaining_Some.
  - apply firstZoneContaining_None.
Qed.

(** Two overlapping zones: the one listed first wins, whichever it is. *)
Example overlap_first_wins :
  let inner := {| zone_id := "i"; name := "Inner"; description := "overlap";
                  type := circle; coordinates := None;
                  center := Some (0, 0)%float; radius := Some 1%float |} in
  let outer := {| zone_id := "o"; name := "Outer"; description := "overlap";
                  type := circle; coordinates := None;
                  center := Some (0, 0)%float; radius := Some 2%float |} in
  firstZoneContaining (mkGeoPoint 0%float 0%float) [inner; outer] = Some "Inner"
  ∧ firstZoneContaining (mkGeoPoint 0%float 0%float) [outer; inner] = Some "Outer".
Proof. by vm_compute. Qed.

(** C6: with the four predefined zones and nothing tracked, vehicle "t1"
    reporting the Downtown vertex (40.7128, -74.0060) enters Downtown; its
    next report (40.7135, -74.0055) triggers nothing and stays in Downtown;
    its report of the Harbor vertex (40.6995, -74.0087) records the exit
    from Downtown and the entry into Harbor and reports the entry. *)
Theorem downtown_then_harbor (t1 t2 t3 : number) :
  let w0 := initializeZones initialWorld in
  let '(a, w1) := trackVehicleLocation "t1" 40.7128%float (-74.0060)%float t1 w0 in
  let '(b, w2) := trackVehicleLocation "t1" 40.7135%float (-74.0055)%float t2 w1 in
  let '(c, w3) := trackVehicleLocation "t1" 40.6995%float (-74.0087)%float t3 w2 in
  name <$> zones w0 = ["Downtown"; "Airport"; "Harbor"; "Stadium"]
  ∧ type <$> zones w0 = [polygon; circle; polygon; circle]
  ∧ (res_currentZone a = Some "Downtown" ∧ eventTriggered a = true
     ∧ event a = Some (mkZoneEvent enter "Downtown" t1))
  ∧ (res_currentZone b = Some "Downtown" ∧ eventTriggered b = false
     ∧ event b = None ∧ history "t1" w2 = history "t1" w1)
  ∧ (res_currentZone c = Some "Harbor" ∧ eventTriggered c = true
     ∧ event c = Some (mkZoneEvent enter "Harbor" t3)
     ∧ history "t1" w3 =
         [ mkZoneEvent enter "Downtown" t1; mkZoneEvent exit "Downtown" t3;
           mkZoneEvent enter "Harbor" t3 ]).
Proof. vm_compute. by repeat split. Qed.

(** * Zone transitions *)

Lemma orNull_named (z : option string) : z ≠ Some EmptyString → orNull z = z.
Proof. unfold orNull. destruct z as [[|]|]; congruence. Qed.

Section ZoneChange.
Variables (vehicleId : string) (timestamp : number).

Lemma zoneChange_same z :
  zoneChange vehicleId z z timestamp = noChange.
Proof. unfold zoneChange. by case_decide. Qed.

Lemma zoneChange_enter z :
  zoneChange vehicleId None (Some z) timestamp =
  {| pushed := [mkZoneEvent enter z timestamp];
     primary := Some (mkZoneEvent enter z timestamp); triggered := true;
     logged := Some (Entered vehicleId z) |}.
Proof. unfold zoneChange. by case_decide. Qed.

Lemma zoneChange_exit z :
  zoneChange vehicleId (Some z) None timestamp =
  {| pushed := [mkZoneEvent exit z timestamp];
     primary := Some (mkZoneEvent exit z timestamp); triggered := true;
     logged := Some (Exited vehicleId z) |}.
Proof. unfold zoneChange. by case_decide. Qed.

Lemma zoneChange_exit_enter z1 z2 :
  z1 ≠ z2 →
  zoneChange vehicleId (Some z1) (Some z2) timestamp =
  {| pushed := [mkZoneEvent exit z1 timestamp; mkZoneEvent enter z2 timestamp];
     primary := Some (mkZoneEvent enter z2 timestamp); triggered := true;
     logged := Some (ExitedAndEntered vehicleId z1 z2) |}.
Proof. intros Hne. unfold zoneChange. case_decide; [congruence | done]. Qed.

Lemma zoneChange_triggered previousZone newZone :
  triggered (zoneChange vehicleId previousZone newZone timestamp) = true ↔
  previousZone ≠ newZone.
Proof.
  unfold zoneChange. case_decide as H.
  - simpl. split; [discriminate | done].
  - destruct previousZone, newZone; simpl; try done.
Qed.


End ZoneChange.

Section Transitions.
Variables (vehicleId : string) (lat lon timestamp : number) (w : World).

Local Abbreviation point := {| latitude := lat; longitude := lon |}.
Local Abbreviation r := (fst (trackVehicleLocation vehicleId lat lon timestamp w)).
Local Abbreviation w' := (snd (trackVehicleLocation vehicleId lat lon timestamp w)).

(** Leaving one zone for another, where the stored zone has a name other
    than the empty string: when the stored zone is [z1] and the report
    resolves to a different zone [z2], the history gets the exit from [z1]
    and then the entry into [z2], both with the call's timestamp, as its two
    latest events, and the call reports the entry.  A stored name
    that is the empty string is read as none, and no exit is pushed. *)
Theorem exit_then_enter (z1 z2 : string) :
  storedZone vehicleId w = Some z1 →
  z1 ≠ EmptyString →
  findCurrentZone point w = Some z2 →
  z1 ≠ z2 →
  history vehicleId w' =
    keepRecent (history vehicleId w
                ++ [mkZoneEvent exit z1 timestamp; mkZoneEvent enter z2 timestamp])
  ∧ (∃ older, history vehicleId w' =
              older ++ [mkZoneEvent exit z1 timestamp;
                        mkZoneEvent enter z2 timestamp])
  ∧ eventTriggered r = true
  ∧ event r = Some (mkZoneEvent enter z2 timestamp).
Proof.
  intros Hprev Hnamed Hnew Hne.
  rewrite trackVehicleLocation_history, trackVehicleLocation_result.
  rewrite Hprev, Hnew, orNull_named by congruence.
  rewrite zoneChange_exit_enter by done. simpl.
  split; [done|]. split; [|done].
  rewrite keepRecent_app_newer by (unfold MAX_EVENTS_PER_VEHICLE; simpl; lia).
  eauto.
Qed.

(** The four cases of a report, where the stored zone has a name other than
    the empty string: the call triggers an event exactly when the resolved
    zone differs from the stored one (none for an untracked vehicle); when
    they are equal the history gets nothing and no event is reported; from
    none into [z] the one event pushed and reported is the entry into [z];
    from [z] to none it is the exit from [z].  A stored name that is the
    empty string is read as none, whatever the report resolves to. *)
Theorem eventTriggered_iff_zone_differs :
  storedZone vehicleId w ≠ Some EmptyString →
  let previous := storedZone vehicleId w in
  let new := findCurrentZone point w in
  (eventTriggered r = true ↔ new ≠ previous)
  ∧ (new = previous →
     history vehicleId w' = keepRecent (history vehicleId w)
     ∧ (length (history vehicleId w) ≤ MAX_EVENTS_PER_VEHICLE →
        history vehicleId w' = history vehicleId w)
     ∧ event r = None)
  ∧ (∀ z, previous = None → new = Some z →
       history vehicleId w' =
         keepRecent (history vehicleId w ++ [mkZoneEvent enter z timestamp])
       ∧ event r = Some (mkZoneEvent enter z timestamp))
  ∧ (∀ z, previous = Some z → new = None →
       history vehicleId w' =
         keepRecent (history vehicleId w ++ [mkZoneEvent exit z timestamp])
       ∧ event r = Some (mkZoneEvent exit z timestamp)).
Proof.
  intros Hnamed previous new. subst previous new.
  rewrite trackVehicleLocation_history, trackVehicleLocation_result.
  rewrite !(orNull_named _ Hnamed). simpl.
  split; [|split; [|split]].
  - rewrite zoneChange_triggered. split; congruence.
  - intros ->. rewrite zoneChange_same. simpl. rewrite app_nil_r.
    split; [done|]. split; [|done]. apply keepRecent_short.
  - intros z -> ->. by rewrite zoneChange_enter.
  - intros z -> ->. by rewrite zoneChange_exit.
Qed.
End Transitions.

Lemma exit_then_enter_witness :
  (storedZone "t1" inDowntown = Some "Downtown"
   ∧ "Downtown" ≠ EmptyString
   ∧ findCurrentZone harborVertex inDowntown = Some "Harbor"
   ∧ "Downtown" ≠ "Harbor")
  ∧ event (fst (trackVehicleLocation "t1" (latitude harborVertex)
                  (longitude harborVertex) 3%float inDowntown))
    = Some (mkZoneEvent enter "Harbor" 3%float).
Proof.
  assert (storedZone "t1" inDowntown = Some "Downtown") as H1
    by (vm_compute; reflexivity).
  assert (findCurrentZone harborVertex inDowntown = Some "Harbor") as H2
    by (vm_compute; reflexivity).
  assert ("Downtown" ≠ EmptyString) as H3 by discriminate.
  assert ("Downtown" ≠ "Harbor") as H4 by discriminate.
  split; [done|].
  apply (exit_then_enter "t1" (latitude harborVertex) (longitude harborVertex)
           3%float inDowntown "Downtown" "Harbor" H1 H3 H2 H4).
Defined.


Lemma eventTriggered_iff_zone_differs_witness :
  storedZone "t1" inDowntown ≠ Some EmptyString
  ∧ (eventTriggered (fst (trackVehicleLocation "t1" (latitude harborVertex)
                            (longitude harborVertex) 3%float inDowntown)) = true
     ↔ findCurrentZone harborVertex inDowntown ≠ storedZone "t1" inDowntown).
Proof.
  assert (storedZone "t1" inDowntown ≠ Some EmptyString) as H
    by (vm_compute; discriminate).
  split; [done|].
  apply (eventTriggered_iff_zone_differs "t1" (latitude harborVertex)
           (longitude harborVertex) 3%float inDowntown H).
Defined.


(** * State update and anomalous jumps *)

Lemma findCurrentZone_zones (point : GeoPoint) (w1 w2 : World) :
  zones w1 = zones w2 → findCurrentZone point w1 = findCurrentZone point w2.
Proof. unfold findCurrentZone, getAllZones. by intros ->. Qed.

Section Relocated.
Variables (vehicleId : string) (lat0 lon0 : number) (w : World).

Lemma relocated_zones : zones (relocated vehicleId lat0 lon0 w) = zones w.
Proof. unfold relocated. by destruct (vehicleStore w !! vehicleId). Qed.

Lemma relocated_storedZone :
  storedZone vehicleId (relocated vehicleId lat0 lon0 w) = storedZone vehicleId w.
Proof.
  unfold relocated, storedZone.
  destruct (vehicleStore w !! vehicleId) as [d|] eqn:Hd; simpl.
  - by rewrite lookup_insert_eq.
  - by rewrite Hd.
Qed.

Lemma relocated_history :
  history vehicleId (relocated vehicleId lat0 lon0 w) = history vehicleId w.
Proof.
  unfold relocated, history.
  destruct (vehicleStore w !! vehicleId) as [d|] eqn:Hd; simpl.
  - by rewrite lookup_insert_eq.
  - by rewrite Hd.
Qed.

Lemma relocated_overwritten (d : VehicleData) :
  <[vehicleId := d]> (vehicleStore (relocated vehicleId lat0 lon0 w)) =
  <[vehicleId := d]> (vehicleStore w).
Proof.
  unfold relocated.
  destruct (vehicleStore w !! vehicleId); simpl; [|done].
  apply insert_insert_eq.
Qed.
End Relocated.

(** C5: every call stores the reported coordinates, the resolved zone and
    the call's timestamp as the vehicle's location, whether or not an event
    fires; an anomalous jump adds one warning to the console and nothing
    else: the result, the store and the catalog after the call are the same
    wherever the vehicle was stored to be before. *)
Theorem location_always_overwritten
    (vehicleId : string) (lat lon timestamp : number) (w : World) :
  let point := {| latitude := lat; longitude := lon |} in
  let r := fst (trackVehicleLocation vehicleId lat lon timestamp w) in
  let w' := snd (trackVehicleLocation vehicleId lat lon timestamp w) in
  (∃ d', vehicleStore w' !! vehicleId = Some d'
         ∧ location d' =
             {| loc_vehicleId := vehicleId; loc_latitude := lat;
                loc_longitude := lon; loc_timestamp := timestamp;
                currentZone := findCurrentZone point w |})
  ∧ zones w' = zones w
  ∧ (∃ fromLat fromLon info,
       console w' =
         console w
         ++ (if anomalousJump vehicleId lat lon w
             then [(WARN, AnomalousMovement vehicleId fromLat fromLon lat lon)]
             else [])
         ++ info
       ∧ Forall (fun entry => entry.1 = INFO) info)
  ∧ (∀ lat0 lon0,
       let moved := relocated vehicleId lat0 lon0 w in
       fst (trackVehicleLocation vehicleId lat lon timestamp moved) = r
       ∧ vehicleStore (snd (trackVehicleLocation vehicleId lat lon timestamp moved))
         = vehicleStore w'
       ∧ zones (snd (trackVehicleLocation vehicleId lat lon timestamp moved))
         = zones w').
Proof.
  intros point r w'. unfold r, w'. repeat split.
  - rewrite trackVehicleLocation_store, lookup_insert_eq. eauto.
  - apply trackVehicleLocation_zones.
  - rewrite trackVehicleLocation_console. do 2 eexists.
    eexists (match logged _ with Some m => [(INFO, m)] | None => [] end).
    split; [reflexivity|]. destruct (logged _); by repeat constructor.
  - rewrite !trackVehicleLocation_result, relocated_storedZone.
    by rewrite (findCurrentZone_zones _ _ w) by apply relocated_zones.
  - rewrite !trackVehicleLocation_store, relocated_storedZone, relocated_history.
    rewrite (findCurrentZone_zones _ _ w) by apply relocated_zones.
    apply relocated_overwritten.
  - by rewrite !trackVehicleLocation_zones, relocated_zones.
Qed.

(** The same report from Downtown and from a stored position far away: the
    second is an anomalous jump, and only the console tells them apart. *)
Example anomaly_only_warns :
  let far := relocated "t1" 0%float 0%float inDowntown in
  let near := trackVehicleLocation "t1" 40.7135%float (-74.0055)%float 2%float inDowntown in
  let jump := trackVehicleLocation "t1" 40.7135%float (-74.0055)%float 2%float far in
  anomalousJump "t1" 40.7135%float (-74.0055)%float inDowntown = false
  ∧ anomalousJump "t1" 40.7135%float (-74.0055)%float far = true
  ∧ fst jump = fst near
  ∧ vehicleStore (snd jump) = vehicleStore (snd near)
  ∧ console (snd jump) =
      console (snd near)
      ++ [(WARN, AnomalousMovement "t1" 0%float 0%float
                   40.7135%float (-74.0055)%float)].
Proof. vm_compute. by repeat split. Qed.

(** * Repeated reports *)

Lemma trackAll_cons (c : Call) (rest : list Call) (w : World) :
  trackAll (c :: rest) w =
  (fst (track c w) :: fst (trackAll rest (snd (track c w))),
   snd (trackAll rest (snd (track c w)))).
Proof.
  change (trackAll (c :: rest) w)
    with (let '(r, w1) := track c w in
          let '(rs, w2) := trackAll rest w1 in (r :: rs, w2)).
  destruct (track c w) as [r w1]. simpl. by destruct (trackAll rest w1).
Qed.

Lemma track_zones (c : Call) (w : World) : zones (snd (track c w)) = zones w.
Proof. apply trackVehicleLocation_zones. Qed.

Lemma track_history_other (c : Call) (w : World) (vehicleId : string) :
  call_vehicleId c ≠ vehicleId →
  history vehicleId (snd (track c w)) = history vehicleId w
  ∧ storedZone vehicleId (snd (track c w)) = storedZone vehicleId w.
Proof.
  intros Hne. unfold history, storedZone, track.
  by rewrite trackVehicleLocation_other.
Qed.


Lemma trackAll_zones (calls : list Call) (w : World) :
  zones (snd (trackAll calls w)) = zones w.
Proof.
  revert w. induction calls as [|c rest IH]; intros w; [done|].
  rewrite trackAll_cons. cbn [fst snd]. by rewrite IH, track_zones.
Qed.

Section Repeated.
Variables (vehicleId : string) (lat lon : number).

Local Abbreviation point := {| latitude := lat; longitude := lon |}.

Lemma settled_stays_settled (later : list Call) (w : World) :
  storedZone vehicleId w = findCurrentZone point w →
  storedZone vehicleId w ≠ Some EmptyString →
  length (history vehicleId w) ≤ MAX_EVENTS_PER_VEHICLE →
  Forall (sameReport vehicleId lat lon) later →
  Forall2 (silent vehicleId) later (fst (trackAll later w))
  ∧ history vehicleId (snd (trackAll later w)) = history vehicleId w.
Proof.
  revert w. induction later as [|c rest IH]; intros w Hzone Hnamed Hlen Hsame.
  { split; [constructor | done]. }
  apply Forall_cons in Hsame as [Hc Hrest]. rewrite trackAll_cons. cbn [fst snd].
  assert (history vehicleId (snd (track c w)) = history vehicleId w
          ∧ storedZone vehicleId (snd (track c w)) = storedZone vehicleId w
          ∧ silent vehicleId c (fst (track c w))) as (Hh & Hz & Hs).
  { destruct (decide (call_vehicleId c = vehicleId)) as [Heq|Hne].
    - destruct (Hc Heq) as [Hlat Hlon]. unfold silent, track.
      rewrite Heq, Hlat, Hlon.
      rewrite trackVehicleLocation_history, trackVehicleLocation_storedZone,
        trackVehicleLocation_result.
      rewrite <- Hzone, (orNull_named _ Hnamed), zoneChange_same.
      simpl. rewrite app_nil_r, keepRecent_short by done. done.
    - destruct (track_history_other c w vehicleId Hne) as [-> ->].
      unfold silent. done. }
  destruct (IH (snd (track c w))) as [Hall Hhist]; try done.
  - rewrite Hz, Hzone. apply findCurrentZone_zones. by rewrite track_zones.
  - by rewrite Hz.
  - by rewrite Hh.
  - split; [by constructor | by rewrite Hhist].
Qed.

(** Repeated reports, at a point whose resolved zone is not named by the
    empty string: after a first report of [(vehicleId, lat, lon)], every
    later report of the same vehicle at the same coordinates, whatever its
    timestamp and whatever other vehicles report in between, triggers no
    event and leaves the vehicle's history as it was.  At a point in a zone
    named by the empty string every repeated report enters it again. *)
Theorem repeated_report_triggers_nothing
    (t1 : number) (w : World) (later : list Call) :
  findCurrentZone point w ≠ Some EmptyString →
  Forall (fun c => call_vehicleId c = vehicleId →
                   call_latitude c = lat ∧ call_longitude c = lon) later →
  let w1 := snd (trackVehicleLocation vehicleId lat lon t1 w) in
  Forall2 (fun c r => call_vehicleId c = vehicleId →
                      eventTriggered r = false ∧ event r = None)
    later (fst (trackAll later w1))
  ∧ history vehicleId (snd (trackAll later w1)) = history vehicleId w1
  ∧ zones (snd (trackAll later w1)) = zones w.
Proof.
  intros Hnamed Hsame w1.
  assert (storedZone vehicleId w1 = findCurrentZone point w) as Hz
    by apply trackVehicleLocation_storedZone.
  destruct (settled_stays_settled later w1) as [Hall Hhist]; try done.
  - rewrite Hz. apply findCurrentZone_zones. unfold w1.
    by rewrite trackVehicleLocation_zones.
  - by rewrite Hz.
  - unfold w1. rewrite trackVehicleLocation_history. apply length_keepRecent.
  - repeat split; try done.
    unfold w1. by rewrite trackAll_zones, trackVehicleLocation_zones.
Qed.
End Repeated.

Lemma repeated_report_triggers_nothing_witness :
  let w := initializeZones initialWorld in
  (findCurrentZone (mkGeoPoint 40.7128%float (-74.0060)%float) w ≠ Some EmptyString
   ∧ Forall (fun c => call_vehicleId c = "t1" →
                      call_latitude c = 40.7128%float
                      ∧ call_longitude c = (-74.0060)%float) downtownAgain)
  ∧ history "t1" (snd (trackAll downtownAgain inDowntown)) = history "t1" inDowntown.
Proof.
  intros w.
  assert (findCurrentZone (mkGeoPoint 40.7128%float (-74.0060)%float) w
          ≠ Some EmptyString) as H1 by (vm_compute; discriminate).
  assert (Forall (fun c => call_vehicleId c = "t1" →
                           call_latitude c = 40.7128%float
                           ∧ call_longitude c = (-74.0060)%float) downtownAgain)
    as H2.
  { repeat constructor; simpl; discriminate. }
  split; [done|].
  apply (repeated_report_triggers_nothing "t1" 40.7128%float (-74.0060)%float
           1%float w downtownAgain H1 H2).
Defined.


(** * Vehicle status *)

Lemma perform_tracked (a : Action) (w : World) (vehicleId : string) :
  bool_decide (is_Some (vehicleStore (perform a w) !! vehicleId)) =
  match a with
  | Track c =>
      bool_decide (is_Some (vehicleStore w !! vehicleId))
      || bool_decide (call_vehicleId c = vehicleId)
  | Reset => false
  end.
Proof.
  destruct a as [c|]; cbn [perform].
  - unfold track. rewrite trackVehicleLocation_store.
    destruct (decide (call_vehicleId c = vehicleId)) as [Heq|Hne].
    + rewrite Heq, lookup_insert_eq, (bool_decide_eq_true_2 (vehicleId = vehicleId)) by done.
      rewrite orb_true_r. by apply bool_decide_eq_true_2.
    + rewrite lookup_insert_ne by done.
      by rewrite (bool_decide_eq_false_2 (call_vehicleId c = vehicleId)), orb_false_r.
  - by apply bool_decide_eq_false_2, is_Some_None.
Qed.

Lemma run_tracked (acts : list Action) (w : World) (vehicleId : string) :
  bool_decide (is_Some (vehicleStore (run acts w) !! vehicleId)) =
  trackedAfter vehicleId acts (bool_decide (is_Some (vehicleStore w !! vehicleId))).
Proof.
  revert w. induction acts as [|a rest IH]; intros w; [done|].
  cbn [run]. rewrite IH, perform_tracked. by destruct a.
Qed.

(** What the status reads from the store: it is absent exactly when the
    store has no entry for the vehicle, which after any run of reports and
    resets from a fresh store means that no report of the vehicle came after
    the last reset; otherwise it gives the stored timestamp and coordinates,
    the last 10 stored events in order and the number of stored events, and
    the stored zone when its name is not the empty string; the call leaves
    the world as it was.  A stored name that is the empty string is given
    as none. *)
Theorem getVehicleStatus_reads_store (vehicleId : string) (w : World) :
  snd (getVehicleStatus vehicleId w) = w
  ∧ (fst (getVehicleStatus vehicleId w) = None ↔ vehicleStore w !! vehicleId = None)
  ∧ (∀ zs acts,
       fst (getVehicleStatus vehicleId (run acts (startWith zs))) = None ↔
       trackedAfter vehicleId acts false = false)
  ∧ (∀ d, vehicleStore w !! vehicleId = Some d →
       ∃ st, fst (getVehicleStatus vehicleId w) = Some st
             ∧ (currentZone (location d) ≠ Some EmptyString →
                st_currentZone st = currentZone (location d))
             ∧ lastLocationUpdate st = loc_timestamp (location d)
             ∧ lastLocation st = geoPointOf (location d)
             ∧ recentEvents st = slice_last 10 (events d)
             ∧ (∃ older, events d = older ++ recentEvents st)
             ∧ length (recentEvents st) = length (events d) `min` 10
             ∧ totalEventsTracked st = length (events d)).
Proof.
  assert (∀ w0, fst (getVehicleStatus vehicleId w0) = None ↔
                vehicleStore w0 !! vehicleId = None) as Habsent.
  { intros w0. unfold getVehicleStatus.
    by destruct (vehicleStore w0 !! vehicleId). }
  repeat split.
  - unfold getVehicleStatus. by destruct (vehicleStore w !! vehicleId).
  - apply Habsent.
  - apply Habsent.
  - rewrite Habsent. intros Hnone.
    rewrite <- (run_tracked acts (startWith zs) vehicleId) at 1.
    + rewrite Hnone. by apply bool_decide_eq_false_2, is_Some_None.
  - rewrite Habsent. intros Hfalse.
    pose proof (run_tracked acts (startWith zs) vehicleId) as Hrun.
    cbn [startWith vehicleStore] in Hrun. rewrite lookup_empty in Hrun.
    rewrite (bool_decide_eq_false_2 (is_Some None)) in Hrun by apply is_Some_None.
    rewrite Hfalse in Hrun. apply bool_decide_eq_false_1 in Hrun.
    by apply eq_None_not_Some.
  - intros d Hd. unfold getVehicleStatus. rewrite Hd. eexists. simpl.
    split; [reflexivity|]. repeat split.
    + apply orNull_named.
    + eexists. apply slice_last_oldest_dropped.
    + apply length_slice_last.
Qed.

Lemma getVehicleStatus_reads_store_witness :
  vehicleStore inDowntown !! "t1" = Some downtownData
  ∧ currentZone (location downtownData) ≠ Some EmptyString
  ∧ ∃ st, fst (getVehicleStatus "t1" inDowntown) = Some st
          ∧ st_currentZone st = Some "Downtown"
          ∧ totalEventsTracked st = 1.
Proof.
  assert (vehicleStore inDowntown !! "t1" = Some downtownData) as H1
    by (vm_compute; reflexivity).
  assert (currentZone (location downtownData) ≠ Some EmptyString) as H2
    by discriminate.
  split; [done|]. split; [done|].
  destruct (getVehicleStatus_reads_store "t1" inDowntown) as (_ & _ & _ & H).
  destruct (H downtownData H1) as (st & Hst & Hzone & _ & _ & _ & _ & _ & Htotal).
  exists st. split; [done|]. split; [exact (Hzone H2) | exact Htotal].
Defined.


(** * The cap on the history *)






(** Fifty-two transitions in and out of zone A: the history starts with the
    third event pushed, and the first entry, stamped 0, is gone: every event
    kept is stamped later than 1. *)
Example oldest_round_trip_evicted :
  let w' := snd (trackAll roundTrips catalogA) in
  length (appendedFor "v" roundTrips catalogA) = 52
  ∧ head (appendedFor "v" roundTrips catalogA) = Some (mkZoneEvent enter "A" 0%float)
  ∧ length (history "v" w') = 50
  ∧ history "v" w' = drop 2 (appendedFor "v" roundTrips catalogA)
  ∧ forallb (fun e => (1 <? ev_timestamp e)%float) (history "v" w') = true.
Proof. vm_compute. by repeat split. Qed.

(** * History and zone agree *)

Section Coherence.
Variables (vehicleId : string) (timestamp : number).

Lemma last_app_two {A : Type} (l : list A) (a b : A) :
  last (l ++ [a; b]) = Some b.
Proof. by rewrite (last_app_cons l [b] a). Qed.

(** One zone change keeps history and zone in agreement. *)
Lemma zoneChange_coherent (previousZone newZone : option string) (evs : list ZoneEvent) :
  coherentWith previousZone (last evs) →
  coherentWith newZone
    (last (evs ++ pushed (zoneChange vehicleId previousZone newZone timestamp))).
Proof.
  intros Hold. destruct (decide (previousZone = newZone)) as [<-|Hne].
  { by rewrite zoneChange_same, app_nil_r. }
  destruct previousZone as [p|], newZone as [n|]; try done.
  - rewrite zoneChange_exit_enter by congruence. simpl.
    rewrite last_app_two. by eexists.
  - rewrite zoneChange_exit. simpl. rewrite last_snoc. by intros e [= <-].
  - rewrite zoneChange_enter. simpl. rewrite last_snoc. by eexists.
Qed.
End Coherence.

Section Reachable.
Variable zs : list Zone.
Hypothesis named : Forall (fun zone => name zone ≠ EmptyString) zs.

Lemma findCurrentZone_named (point : GeoPoint) (w : World) :
  zones w = zs → findCurrentZone point w ≠ Some EmptyString.
Proof.
  intros Hzs Hfound. unfold findCurrentZone, getAllZones in Hfound.
  rewrite Hzs in Hfound.
  apply firstZoneContaining_named in Hfound as (zone & Hin & Hname).
  rewrite Forall_forall in named. by apply (named zone).
Qed.

Lemma sound_startWith : sound zs (startWith zs).
Proof.
  split; [done|]. intros v d Hd. unfold startWith in Hd.
  cbn [vehicleStore] in Hd. by rewrite lookup_empty in Hd.
Qed.

Lemma sound_perform (a : Action) (w : World) :
  sound zs w → sound zs (perform a w).
Proof.
  intros [Hzs Hstore]. destruct a as [c|]; cbn [perform].
  - split; [by rewrite track_zones|]. intros v d. unfold track.
    rewrite trackVehicleLocation_store.
    destruct (decide (call_vehicleId c = v)) as [<-|Hne].
    + rewrite lookup_insert_eq. intros [= <-]. unfold coherent. simpl.
      split; [by apply findCurrentZone_named|].
      rewrite last_keepRecent. unfold storedZone, history.
      destruct (vehicleStore w !! call_vehicleId c) as [d0|] eqn:Hd0; simpl.
      * destruct (Hstore _ _ Hd0) as [Hnamed Hcoh].
        rewrite orNull_named by done. by apply zoneChange_coherent.
      * by apply (zoneChange_coherent _ _ None _ []).
    + rewrite lookup_insert_ne by done. apply Hstore.
  - split; [done|]. intros v d Hd.
    unfold clearAllVehicleData, logger.log in Hd. cbn [vehicleStore] in Hd.
    by rewrite lookup_empty in Hd.
Qed.

Lemma sound_run (acts : list Action) (w : World) :
  sound zs w → sound zs (run acts w).
Proof.
  revert w. induction acts as [|a rest IH]; intros w Hw; [done|].
  cbn [run]. by apply IH, sound_perform.
Qed.

(** History and zone agree under a catalog none of whose zones is named by
    the empty string: in every state reached from a fresh store by reports
    and resets, a tracked vehicle whose stored zone is [z] has a history
    that ends with the entry into [z], and one stored outside every zone has
    a history that is empty or ends with an exit.  The first half holds
    under every catalog; the second needs the names, since a stored name
    that is the empty string is read as none and its exit is not pushed. *)
Theorem history_coherent_with_zone
    (acts : list Action) (v : string) (d : VehicleData) :
  vehicleStore (run acts (startWith zs)) !! v = Some d →
  (∀ z, currentZone (location d) = Some z →
        ∃ older e, events d = older ++ [e] ∧ ev_type e = enter ∧ ev_zone e = z)
  ∧ (currentZone (location d) = None →
     events d = [] ∨ ∃ older e, events d = older ++ [e] ∧ ev_type e = exit).
Proof.
  intros Hd.
  destruct (sound_run acts (startWith zs) sound_startWith) as [_ Hstore].
  destruct (Hstore v d Hd) as [_ Hcoh]. unfold coherent in Hcoh. split.
  - intros z Hz. rewrite Hz in Hcoh. destruct Hcoh as (e & Hlast & Henter & Hzone).
    apply last_Some in Hlast as [older ->]. eauto.
  - intros Hz. rewrite Hz in Hcoh. simpl in Hcoh.
    destruct (last (events d)) as [e|] eqn:Hlast.
    + right. apply last_Some in Hlast as [older ->]. eauto.
    + left. by apply last_None.
Qed.
End Reachable.

Lemma history_coherent_with_zone_witness :
  Forall (fun zone => name zone ≠ EmptyString) predefinedZones
  ∧ vehicleStore
      (run [Track (mkCall "t1" 40.7128%float (-74.0060)%float 1%float)]
         (startWith predefinedZones)) !! "t1" = Some downtownData
  ∧ ∃ older e, events downtownData = older ++ [e]
               ∧ ev_type e = enter ∧ ev_zone e = "Downtown".
Proof.
  assert (Forall (fun zone => name zone ≠ EmptyString) predefinedZones) as H1
    by (repeat constructor; discriminate).
  assert (vehicleStore
            (run [Track (mkCall "t1" 40.7128%float (-74.0060)%float 1%float)]
               (startWith predefinedZones)) !! "t1" = Some downtownData) as H2
    by (vm_compute; reflexivity).
  split; [done|]. split; [done|].
  destruct (history_coherent_with_zone predefinedZones H1 _ _ _ H2) as [H _].
  exact (H "Downtown" eq_refl).
Defined.


(** * Further properties of the geofence engine *)

Section RayCasting.
Variables x y : number.

Lemma fold_edgeStep_crossings (vertices : list (number * number))
    (previous : number * number) (inside : bool) :
  snd (fold_left (edgeStep x y) vertices (previous, inside)) =
  xorb inside (crossings x y previous vertices).
Proof.
  revert previous inside.
  induction vertices as [|v rest IH]; intros previous inside; simpl.
  - by rewrite xorb_false_r.
  - unfold edgeStep at 2. simpl. rewrite IH.
    by destruct (edgeCrossed x y v previous), inside, (crossings x y v rest).
Qed.

Lemma crossings_snoc (vertices : list (number * number))
    (previous v : number * number) :
  crossings x y previous (vertices ++ [v]) =
  xorb (crossings x y previous vertices)
    (edgeCrossed x y v (default previous (last vertices))).
Proof.
  revert previous. induction vertices as [|a rest IH]; intros previous; simpl.
  - by rewrite xorb_false_r.
  - assert (default previous (last (a :: rest)) = default a (last rest)) as ->.
    { destruct rest as [|b rest' _] using rev_ind; [done|].
      by rewrite app_comm_cons, !last_snoc. }
    by rewrite IH, xorb_assoc.
Qed.

Lemma crossings_none (vertices : list (number * number))
    (previous : number * number) :
  (∀ vi vj, edgeCrossed x y vi vj = false) →
  crossings x y previous vertices = false.
Proof.
  intros Hnone. revert previous.
  induction vertices as [|v rest IH]; intros previous; simpl; [done|].
  by rewrite Hnone, IH.
Qed.

Lemma crossings_same_side (b : bool) (vertices : list (number * number))
    (previous : number * number) :
  (y <? previous.2)%float = b →
  (∀ v, v ∈ vertices → (y <? v.2)%float = b) →
  crossings x y previous vertices = false.
Proof.
  revert previous. induction vertices as [|v rest IH]; intros previous Hp Hall;
    simpl; [done|].
  rewrite IH.
  - rewrite xorb_false_r. unfold edgeCrossed. destruct v as [xi yi], previous as [xj yj].
    pose proof (Hall (xi, yi) ltac:(left)) as Hv. simpl in Hp, Hv.
    rewrite Hp, Hv. by destruct b.
  - apply Hall. left.
  - intros v' Hin. apply Hall. by right.
Qed.

Lemma castAlongEdges_crossings (vertices : list (number * number)) :
  castAlongEdges x y vertices =
  match last vertices with
  | Some vlast => crossings x y vlast vertices
  | None => false
  end.
Proof.
  unfold castAlongEdges. destruct (last vertices); [|done].
  by rewrite fold_edgeStep_crossings.
Qed.
End RayCasting.

(** X1: which vertex of the ring is listed first does not matter: moving
    the first vertex of a polygon to the end gives the same membership. *)
Theorem isPointInPolygon_rotation
    (point : GeoPoint) (v : number * number) (vertices : list (number * number)) :
  isPointInPolygon point (vertices ++ [v]) = isPointInPolygon point (v :: vertices).
Proof.
  rewrite !isPointInPolygon_edges, !castAlongEdges_crossings.
  rewrite last_snoc, crossings_snoc. simpl crossings.
  replace (last (v :: vertices)) with (Some (default v (last vertices)))
    by (by destruct vertices as [|a rest] using rev_ind;
          [|rewrite app_comm_cons, !last_snoc]).
  apply xorb_comm.
Qed.

(** X2: only an edge whose ends lie on different sides of the point's
    longitude can count: when every vertex compares the same way with the
    point's longitude, and in particular when the polygon has no vertex or
    one, the point is outside. *)
Theorem isPointInPolygon_needs_straddling_edge
    (point : GeoPoint) (vertices : list (number * number)) :
  (∃ b, ∀ v, v ∈ vertices → (longitude point <? v.2)%float = b)
  ∨ length vertices ≤ 1 →
  isPointInPolygon point vertices = false.
Proof.
  intros H.
  assert (∃ b, ∀ v, v ∈ vertices → (longitude point <? v.2)%float = b)
    as [b Hb].
  { destruct H as [H|H]; [done|]. destruct vertices as [|v [|? ?]].
    - exists false. by intros v Hin%elem_of_nil.
    - exists (longitude point <? v.2)%float. by intros v' ->%list_elem_of_singleton.
    - simpl in H. lia. }
  rewrite isPointInPolygon_edges, castAlongEdges_crossings.
  destruct (last vertices) as [vlast|] eqn:Hlast; [|done].
  apply (crossings_same_side _ _ b); [|done].
  apply Hb. apply last_Some in Hlast as [older ->].
  apply elem_of_app. right. left.
Qed.

Lemma isPointInPolygon_needs_straddling_edge_witness :
  (∃ b, ∀ v, v ∈ [(0, 0); (0, 2); (2, 2); (2, 0)]%float →
             (longitude (mkGeoPoint 1 3) <? v.2)%float = b)
  ∧ isPointInPolygon (mkGeoPoint 1 3) [(0, 0); (0, 2); (2, 2); (2, 0)]%float = false.
Proof.
  assert (∃ b, ∀ v, v ∈ [(0, 0); (0, 2); (2, 2); (2, 0)]%float →
                    (longitude (mkGeoPoint 1 3) <? v.2)%float = b) as H.
  { exists false. intros v Hin.
    repeat (apply elem_of_cons in Hin as [->|Hin]; [by vm_compute|]).
    by apply elem_of_nil in Hin. }
  split; [done|].
  apply isPointInPolygon_needs_straddling_edge. by left.
Defined.

(** ** Values that are not numbers, radii below zero *)

Lemma SFcompare_refl (f : spec_float) :
  f ≠ S754_nan → SFcompare f f = Some Eq.
Proof.
  destruct f as [s|s| |s m e]; simpl; try done; try (by destruct s).
  intros _. rewrite Z.compare_refl.
  change (Pos.compare_cont Eq m m) with (m ?= m)%positive.
  rewrite Pos.compare_refl. by destruct s.
Qed.

Lemma isNaN_spec (n : number) : isNaN n = true ↔ Prim2SF n = S754_nan.
Proof.
  unfold isNaN. rewrite FloatAxioms.eqb_spec. unfold SFeqb. split.
  - intros H. destruct (Prim2SF n) as [s|s| |s m e] eqn:Hn; [| |done|];
      by rewrite SFcompare_refl in H.
  - by intros ->.
Qed.

Section NotANumber.
Implicit Types a b : number.

Lemma nan_sub a b :
  Prim2SF a = S754_nan ∨ Prim2SF b = S754_nan → Prim2SF (a - b) = S754_nan.
Proof.
  rewrite FloatAxioms.sub_spec. unfold SF64sub, SFsub.
  intros [->| ->]; [done|]. by destruct (Prim2SF a).
Qed.

Lemma nan_mul a b :
  Prim2SF a = S754_nan ∨ Prim2SF b = S754_nan → Prim2SF (a * b) = S754_nan.
Proof.
  rewrite FloatAxioms.mul_spec. unfold SF64mul, SFmul.
  intros [->| ->]; [done|]. by destruct (Prim2SF a).
Qed.

Lemma nan_add a b :
  Prim2SF a = S754_nan ∨ Prim2SF b = S754_nan → Prim2SF (a + b) = S754_nan.
Proof.
  rewrite FloatAxioms.add_spec. unfold SF64add, SFadd.
  intros [->| ->]; [done|]. by destruct (Prim2SF a).
Qed.

Lemma nan_sqrt a : Prim2SF a = S754_nan → Prim2SF (PrimFloat.sqrt a) = S754_nan.
Proof. rewrite FloatAxioms.sqrt_spec. by intros ->. Qed.

Lemma nan_ltb a b :
  Prim2SF a = S754_nan ∨ Prim2SF b = S754_nan → (a <? b)%float = false.
Proof.
  rewrite FloatAxioms.ltb_spec. unfold SFltb.
  intros [->| ->]; [done|]. by destruct (Prim2SF a).
Qed.

Lemma nan_leb a b :
  Prim2SF a = S754_nan ∨ Prim2SF b = S754_nan → (a <=? b)%float = false.
Proof.
  rewrite FloatAxioms.leb_spec. unfold SFleb.
  intros [->| ->]; [done|]. by destruct (Prim2SF a).
Qed.

Lemma nan_calculateDistance (p q : GeoPoint) :
  isNaN (latitude p) = true ∨ isNaN (longitude p) = true
  ∨ isNaN (latitude q) = true ∨ isNaN (longitude q) = true →
  Prim2SF (calculateDistance p q) = S754_nan.
Proof.
  rewrite !isNaN_spec. intros H. unfold calculateDistance.
  apply nan_sqrt, nan_add.
  destruct H as [H|[H|[H|H]]];
    [left|right|left|right]; apply nan_mul; left; apply nan_sub; auto.
Qed.
End NotANumber.

(** X3: a point one of whose coordinates is not a number lies in no zone,
    of either shape: it resolves to no zone under every catalog, and it is
    never an anomalous jump, whatever the previous position. *)
Theorem nan_point_in_no_zone (point : GeoPoint) :
  isNaN (latitude point) = true ∨ isNaN (longitude point) = true →
  (∀ zone, isPointInZone point zone = false)
  ∧ (∀ w, findCurrentZone point w = None)
  ∧ (∀ previous, isAnomalousMovement previous point = false).
Proof.
  intros Hnan.
  assert (∀ zone, isPointInZone point zone = false) as Hzone.
  { intros zone. unfold isPointInZone.
    destruct (type zone), (center zone) as [c|], (radius zone) as [r|],
      (coordinates zone) as [cs|]; try done.
    all: try (unfold isPointInCircle; apply nan_leb; left;
              apply nan_calculateDistance; tauto).
    all: rewrite isPointInPolygon_edges, castAlongEdges_crossings;
      destruct (last cs); [|done]; apply crossings_none;
      intros [xi yi] [xj yj]; unfold edgeCrossed;
      destruct Hnan as [Hx|Hy];
      [ rewrite (nan_ltb (latitude point)) by (left; by apply isNaN_spec);
        apply andb_false_r
      | rewrite !(nan_ltb (longitude point)) by (left; by apply isNaN_spec);
        done ]. }
  split; [done|]. split.
  - intros w. apply firstZoneContaining_None. auto.
  - intros [previous|]; [|done]. unfold isAnomalousMovement.
    apply nan_ltb. right. apply nan_calculateDistance. tauto.
Qed.

Lemma nan_point_in_no_zone_witness :
  isNaN (latitude (mkGeoPoint nan 0)) = true
  ∧ findCurrentZone (mkGeoPoint nan 0) (initializeZones initialWorld) = None.
Proof.
  assert (isNaN (latitude (mkGeoPoint nan 0)) = true) as H
    by (vm_compute; reflexivity).
  split; [done|].
  apply (nan_point_in_no_zone (mkGeoPoint nan 0) (or_introl H)).
Defined.

Lemma binary_round_aux_notNegative (p emx mx ex : Z) (lx : SpecFloat.location) :
  notNegative (binary_round_aux p emx false mx ex lx).
Proof.
  unfold binary_round_aux.
  destruct (shr_fexp p emx mx ex lx) as [mrs' e'].
  destruct (shr_fexp p emx _ e' loc_Exact) as [mrs'' e''].
  destruct (shr_m mrs''); simpl; try done.
  by destruct (_ <=? _)%Z.
Qed.

Lemma sqrt_notNegative (a : number) : notNegative (Prim2SF (PrimFloat.sqrt a)).
Proof.
  rewrite FloatAxioms.sqrt_spec. unfold SF64sqrt, SFsqrt.
  destruct (Prim2SF a) as [s|[]| |[] m e]; simpl; try done.
  destruct (SFsqrt_core_binary prec emax (Z.pos m) e) as [[mz ez] lz].
  apply binary_round_aux_notNegative.
Qed.

(** X4: a circle whose radius is below zero, or not a number, contains no
    point, not even its centre. *)
Theorem isPointInCircle_radius_below_zero
    (point : GeoPoint) (c : number * number) (r : number) :
  (0 <=? r)%float = false → isPointInCircle point c r = false.
Proof.
  intros Hr. unfold isPointInCircle.
  pose proof (sqrt_notNegative
    ((latitude point - c.1) * (latitude point - c.1)
     + (longitude point - c.2) * (longitude point - c.2))%float) as Hd.
  rewrite FloatAxioms.leb_spec in Hr |- *. unfold calculateDistance. simpl.
  change (Prim2SF 0) with (S754_zero false) in Hr.
  unfold SFleb in *.
  destruct (Prim2SF r) as [sr|sr| |sr mr er]; simpl in Hr.
  - done.
  - destruct sr; [|done].
    destruct (Prim2SF (PrimFloat.sqrt _)) as [s|s| |s m e]; simpl in *;
      by subst.
  - by destruct (Prim2SF (PrimFloat.sqrt _)).
  - destruct sr; [|done].
    destruct (Prim2SF (PrimFloat.sqrt _)) as [s|s| |s m e]; simpl in *;
      by subst.
Qed.

Lemma isPointInCircle_radius_below_zero_witness :
  (0 <=? -1)%float = false
  ∧ isPointInCircle (mkGeoPoint 0 0) (0, 0)%float (-1)%float = false.
Proof.
  assert ((0 <=? -1)%float = false) as H by (vm_compute; reflexivity).
  split; [done|]. by apply isPointInCircle_radius_below_zero.
Defined.

(** * The zone catalog *)

Section CatalogLookup.
Implicit Types (zs : list Zone) (z : Zone) (zoneId : string).

Local Abbreviation byId zoneId := (fun z : Zone => String.eqb (zone_id z) zoneId).

Lemma find_byId_Some zs zoneId z :
  find (byId zoneId) zs = Some z → z ∈ zs ∧ zone_id z = zoneId.
Proof.
  induction zs as [|a zs IH]; simpl; [done|].
  destruct (String.eqb (zone_id a) zoneId) eqn:Ha.
  - intros [= <-]. apply String.eqb_eq in Ha. split; [left | done].
  - intros [Hin Hid]%IH. split; [by right | done].
Qed.

Lemma find_byId_None zs zoneId :
  find (byId zoneId) zs = None ↔ zoneId ∉ zone_id <$> zs.
Proof.
  induction zs as [|a zs IH]; simpl.
  - split; [intros _ Hin; by apply elem_of_nil in Hin | done].
  - destruct (String.eqb (zone_id a) zoneId) eqn:Ha.
    + apply String.eqb_eq in Ha. split; [done|]. intros []. rewrite Ha. left.
    + apply String.eqb_neq in Ha. rewrite IH, not_elem_of_cons.
      split; [by split | by intros [_ ?]].
Qed.

Lemma find_byId_NoDup zs z :
  NoDup (zone_id <$> zs) → z ∈ zs → find (byId (zone_id z)) zs = Some z.
Proof.
  induction zs as [|a zs IH]; simpl; intros Hnd Hin.
  - by apply elem_of_nil in Hin.
  - apply NoDup_cons in Hnd as [Ha Hnd].
    apply elem_of_cons in Hin as [->|Hin].
    + by rewrite String.eqb_refl.
    + destruct (String.eqb (zone_id a) (zone_id z)) eqn:Haz; [|by apply IH].
      apply String.eqb_eq in Haz. destruct Ha. rewrite Haz.
      by apply list_elem_of_fmap_2.
Qed.

Lemma find_byId_app zs1 zs2 zoneId :
  find (byId zoneId) (zs1 ++ zs2) =
  match find (byId zoneId) zs1 with
  | Some z => Some z
  | None => find (byId zoneId) zs2
  end.
Proof.
  induction zs1 as [|a zs1 IH]; simpl; [done|].
  by destruct (String.eqb (zone_id a) zoneId).
Qed.

Lemma find_byId_filter zs zoneId other :
  other ≠ zoneId →
  find (byId other) (filter (fun z => zone_id z ≠ zoneId) zs) =
  find (byId other) zs.
Proof.
  intros Hne. induction zs as [|a zs IH]; [done|].
  rewrite filter_cons. simpl. case_decide as Ha.
  - simpl. by rewrite IH.
  - rewrite IH.
    destruct (String.eqb (zone_id a) other) eqn:Hao; [|done].
    apply String.eqb_eq in Hao. congruence.
Qed.

Lemma filter_absent zs zoneId :
  zoneId ∉ zone_id <$> zs → filter (fun z => zone_id z ≠ zoneId) zs = zs.
Proof.
  induction zs as [|a zs IH]; [done|]. rewrite fmap_cons, not_elem_of_cons.
  intros [Hne Hnotin]. rewrite filter_cons, decide_True by done.
  by rewrite IH.
Qed.

Lemma firstZoneContaining_app (point : GeoPoint) zs1 zs2 :
  firstZoneContaining point (zs1 ++ zs2) =
  match firstZoneContaining point zs1 with
  | Some n => Some n
  | None => firstZoneContaining point zs2
  end.
Proof.
  induction zs1 as [|a zs1 IH]; simpl; [done|].
  by destruct (isPointInZone point a).
Qed.

Lemma firstZoneContaining_filter (point : GeoPoint) zs zoneId :
  (∀ z, z ∈ zs → zone_id z = zoneId → isPointInZone point z = false) →
  firstZoneContaining point (filter (fun z => zone_id z ≠ zoneId) zs) =
  firstZoneContaining point zs.
Proof.
  induction zs as [|a zs IH]; intros Hout; [done|].
  rewrite filter_cons. case_decide as Ha; simpl.
  - rewrite IH; [done|]. intros z Hin. apply Hout. by right.
  - rewrite (Hout a) by (done || left).
    apply IH. intros z Hin. apply Hout. by right.
Qed.
End CatalogLookup.

Lemma NoDup_ids_filter (zs : list Zone) (zoneId : string) :
  NoDup (zone_id <$> zs) →
  NoDup (zone_id <$> filter (fun z => zone_id z ≠ zoneId) zs).
Proof.
  induction zs as [|a zs IH]; [done|]. rewrite fmap_cons.
  intros [Ha Hnd]%NoDup_cons. rewrite filter_cons.
  case_decide; [|by apply IH].
  rewrite fmap_cons. apply NoDup_cons. split; [|by apply IH].
  rewrite list_elem_of_fmap. intros (z & Hid & [_ Hin]%list_elem_of_filter).
  apply Ha. rewrite Hid. by apply list_elem_of_fmap_2.
Qed.

Lemma administerAll_snoc (ops : list CatalogOp) (op : CatalogOp) (w : World) :
  administerAll (ops ++ [op]) w = administer op (administerAll ops w).
Proof. unfold administerAll. by rewrite fold_left_app. Qed.

Lemma administer_ids_unique (op : CatalogOp) (w : World) :
  NoDup (zone_id <$> zones w) → NoDup (zone_id <$> zones (administer op w)).
Proof.
  intros Hnd. destruct op as [|zone|zoneId]; cbn [administer].
  - unfold initializeZones, logger.log. cbn [zones].
    apply (bool_decide_unpack _). by vm_compute.
  - unfold addZone.
    destruct (find _ (zones w)) as [z|] eqn:Hfind; [done|].
    unfold logger.log. cbn [zones]. rewrite fmap_app.
    apply NoDup_app. split; [done|]. split; [|apply NoDup_singleton].
    intros i Hi ->%list_elem_of_singleton.
    by apply find_byId_None in Hfind.
  - unfold removeZone. cbn [fst zones].
    by apply NoDup_ids_filter.
Qed.

(** X5: however the catalog is administered from its initial, empty state
    (initialised, zones added, zones removed, in any order), no two of its
    zones share an id, so [getZoneById] finds exactly the zones of the
    catalog, each under its own id. *)
Theorem catalog_ids_unique (ops : list CatalogOp) :
  let w := administerAll ops initialWorld in
  NoDup (zone_id <$> zones w)
  ∧ (∀ z, z ∈ zones w ↔ getZoneById (zone_id z) w = Some z)
  ∧ (∀ zoneId, getZoneById zoneId w = None ↔ ∀ z, z ∈ zones w → zone_id z ≠ zoneId).
Proof.
  intros w.
  assert (NoDup (zone_id <$> zones w)) as Hnd.
  { unfold w. induction ops as [|op ops IH] using rev_ind.
    - apply NoDup_nil_2.
    - rewrite administerAll_snoc. by apply administer_ids_unique. }
  split; [done|]. split.
  - intros z. unfold getZoneById. split.
    + by apply find_byId_NoDup.
    + by intros [Hin _]%find_byId_Some.
  - intros zoneId. unfold getZoneById. rewrite find_byId_None.
    rewrite list_elem_of_fmap. split.
    + intros Hnone z Hin Hid. apply Hnone. by exists z.
    + intros Hnone (z & -> & Hin). by apply (Hnone z).
Qed.

(** X6: [addZone] puts a zone with a new id at the end of the catalog, where
    [getZoneById] finds it and where it has the lowest priority: a point
    that resolved to a zone resolves to the same zone afterwards.  A zone
    whose id is taken is refused with a warning, the catalog and the zone
    found under that id staying as they were.  Other ids and the tracked
    vehicles are untouched either way. *)
Theorem addZone_appends_or_refuses (zone : Zone) (w : World) :
  let w' := addZone zone w in
  match getZoneById (zone_id zone) w with
  | None =>
      zones w' = zones w ++ [zone]
      ∧ getZoneById (zone_id zone) w' = Some zone
      ∧ getZoneCount w' = S (getZoneCount w)
      ∧ console w' = console w ++ [(INFO, AddedZone (name zone))]
  | Some existing =>
      zones w' = zones w
      ∧ getZoneById (zone_id zone) w' = Some existing
      ∧ console w' = console w ++ [(WARN, ZoneExists (zone_id zone))]
  end
  ∧ (∀ other, other ≠ zone_id zone → getZoneById other w' = getZoneById other w)
  ∧ (∀ point n, findCurrentZone point w = Some n → findCurrentZone point w' = Some n)
  ∧ vehicleStore w' = vehicleStore w.
Proof.
  intros w'. unfold w', getZoneById, getZoneCount, findCurrentZone, getAllZones, addZone.
  destruct (find _ (zones w)) as [existing|] eqn:Hfind;
    unfold logger.log, logger.warn; cbn [zones console vehicleStore].
  - by rewrite Hfind.
  - rewrite find_byId_app, Hfind, length_app. simpl.
    rewrite String.eqb_refl. repeat split; try done.
    + lia.
    + intros other Hne. rewrite find_byId_app.
      destruct (find (fun z => String.eqb (zone_id z) other) (zones w));
        [done|]. simpl.
      destruct (String.eqb (zone_id zone) other) eqn:Heq; [|done].
      apply String.eqb_eq in Heq. congruence.
    + intros point n Hn. by rewrite firstZoneContaining_app, Hn.
Qed.

(** X7: after [removeZone] no zone of the catalog has the id; the zones of
    other ids stay, in their order, and are found as before; an id that no
    zone has leaves the catalog as it was; a point that the removed zone
    did not contain resolves as before; the tracked vehicles are untouched. *)
Theorem removeZone_removes (zoneId : string) (w : World) :
  let w' := fst (removeZone zoneId w) in
  getZoneById zoneId w' = None
  ∧ zones w' = filter (fun z => zone_id z ≠ zoneId) (zones w)
  ∧ (∀ other, other ≠ zoneId → getZoneById other w' = getZoneById other w)
  ∧ (getZoneById zoneId w = None → zones w' = zones w)
  ∧ (∀ point,
       (∀ z, z ∈ zones w → zone_id z = zoneId → isPointInZone point z = false) →
       findCurrentZone point w' = findCurrentZone point w)
  ∧ vehicleStore w' = vehicleStore w
  ∧ snd (removeZone zoneId w) = RemovedZone zoneId.
Proof.
  intros w'. unfold w', getZoneById, findCurrentZone, getAllZones, removeZone.
  cbn [fst snd zones vehicleStore]. repeat split.
  - apply find_byId_None. rewrite list_elem_of_fmap.
    intros (z & Hid & [Hne _]%list_elem_of_filter). congruence.
  - intros other Hne. by apply find_byId_filter.
  - intros Habsent%find_byId_None. by apply filter_absent.
  - intros point Hout. by apply firstZoneContaining_filter.
Qed.

(** X8: adding a zone whose id is new and removing it again gives back the
    catalog; removing a zone and adding it again puts it last, behind the
    zones it may have come before. *)
Theorem addZone_removeZone_round_trip (zone : Zone) (w : World) :
  (getZoneById (zone_id zone) w = None →
   zones (fst (removeZone (zone_id zone) (addZone zone w))) = zones w)
  ∧ zones (addZone zone (fst (removeZone (zone_id zone) w))) =
    filter (fun z => zone_id z ≠ zone_id zone) (zones w) ++ [zone].
Proof.
  unfold removeZone, addZone, getZoneById. cbn [fst zones]. split.
  - intros Hnew. rewrite Hnew. unfold logger.log. cbn [zones].
    rewrite filter_app, filter_cons, decide_False, filter_nil, app_nil_r by auto.
    apply filter_absent. by apply find_byId_None.
  - assert (find (fun z => String.eqb (zone_id z) (zone_id zone))
              (filter (fun z => zone_id z ≠ zone_id zone) (zones w)) = None)
      as ->; [|done].
    apply find_byId_None. rewrite list_elem_of_fmap.
    intros (z & Hid & [Hne _]%list_elem_of_filter). congruence.
Qed.

Lemma addZone_removeZone_round_trip_witness :
  getZoneById (zone_id zoneA) (initializeZones initialWorld) = None
  ∧ zones (fst (removeZone (zone_id zoneA)
                  (addZone zoneA (initializeZones initialWorld))))
    = zones (initializeZones initialWorld).
Proof.
  assert (getZoneById (zone_id zoneA) (initializeZones initialWorld) = None) as H
    by (vm_compute; reflexivity).
  split; [done|].
  destruct (addZone_removeZone_round_trip zoneA (initializeZones initialWorld))
    as [Hround _].
  exact (Hround H).
Defined.

Lemma find_Some_elem_of {A : Type} (f : A → bool) (l : list A) (x : A) :
  find f l = Some x → x ∈ l ∧ f x = true.
Proof.
  induction l as [|a l IH]; simpl; [done|]. destruct (f a) eqn:Ha.
  - intros [= <-]. split; [left | done].
  - intros [Hin Hf]%IH. split; [by right | done].
Qed.

Lemma find_app_Some {A : Type} (f : A → bool) (l1 l2 : list A) (x : A) :
  find f l1 = Some x → find f (l1 ++ l2) = Some x.
Proof.
  induction l1 as [|a l1 IH]; simpl; [done|]. by destruct (f a).
Qed.

(** X9: [addZone] looks at the id alone: a zone whose id is new is added
    also when a zone of the catalog already has its name; the catalog then
    holds two zones of that name, and [getZoneByName] keeps answering with
    the older one. *)
Theorem addZone_ignores_names (zone older : Zone) (w : World) :
  getZoneById (zone_id zone) w = None →
  getZoneByName (name zone) w = Some older →
  let w' := addZone zone w in
  older ∈ zones w' ∧ zone ∈ zones w'
  ∧ name older = name zone ∧ zone_id older ≠ zone_id zone
  ∧ getZoneByName (name zone) w' = Some older.
Proof.
  unfold getZoneById, getZoneByName, addZone. intros Hnew Hname.
  rewrite Hnew. unfold logger.log. cbn [zones].
  destruct (find_Some_elem_of _ _ _ Hname) as [Hin Heq].
  apply String.eqb_eq in Heq. repeat split.
  - apply elem_of_app. by left.
  - apply elem_of_app. right. left.
  - done.
  - intros Hid. apply find_byId_None in Hnew. apply Hnew. rewrite <- Hid.
    by apply list_elem_of_fmap_2.
  - by apply find_app_Some.
Qed.

Lemma addZone_ignores_names_witness :
  let w := initializeZones initialWorld in
  getZoneById (zone_id downtownAnnex) w = None
  ∧ (∃ older, getZoneByName (name downtownAnnex) w = Some older
              ∧ older ∈ zones (addZone downtownAnnex w)
              ∧ downtownAnnex ∈ zones (addZone downtownAnnex w)
              ∧ zone_id older ≠ zone_id downtownAnnex).
Proof.
  intros w.
  assert (getZoneById (zone_id downtownAnnex) w = None) as H1
    by (vm_compute; reflexivity).
  split; [done|].
  destruct (getZoneByName (name downtownAnnex) w) as [older|] eqn:H2;
    [|by vm_compute in H2].
  exists older. split; [done|].
  destruct (addZone_ignores_names downtownAnnex older w H1 H2)
    as (Ha & Hb & _ & Hc & _).
  done.
Defined.

(** X10: a zone removed while a vehicle is stored in a zone: when the zones
    that contain the reported point all have the removed id, the vehicle's
    next report there resolves to no zone and triggers the exit from the
    zone it was stored in, though the vehicle may not have moved. *)
Theorem removed_zone_is_exited
    (vehicleId zoneId z : string) (lat lon timestamp : number) (w : World) :
  let point := {| latitude := lat; longitude := lon |} in
  storedZone vehicleId w = Some z →
  z ≠ EmptyString →
  (∀ zone, zone ∈ zones w → isPointInZone point zone = true →
           zone_id zone = zoneId) →
  let w1 := fst (removeZone zoneId w) in
  let r := fst (trackVehicleLocation vehicleId lat lon timestamp w1) in
  let w2 := snd (trackVehicleLocation vehicleId lat lon timestamp w1) in
  res_currentZone r = None
  ∧ eventTriggered r = true
  ∧ event r = Some (mkZoneEvent exit z timestamp)
  ∧ history vehicleId w2 =
      keepRecent (history vehicleId w ++ [mkZoneEvent exit z timestamp]).
Proof.
  intros point Hstored Hnamed Honly w1 r w2.
  assert (findCurrentZone point w1 = None) as Hnone.
  { apply firstZoneContaining_None. intros zone Hin.
    unfold w1, removeZone, getAllZones in Hin. cbn [fst zones] in Hin.
    apply list_elem_of_filter in Hin as [Hne Hin].
    destruct (isPointInZone point zone) eqn:Hz; [|done].
    by destruct (Hne (Honly zone Hin Hz)). }
  unfold r, w2.
  rewrite trackVehicleLocation_history, trackVehicleLocation_result.
  fold point. rewrite Hnone.
  change (storedZone vehicleId w1) with (storedZone vehicleId w).
  change (history vehicleId w1) with (history vehicleId w).
  rewrite Hstored, orNull_named by congruence.
  by rewrite zoneChange_exit.
Qed.

Lemma removed_zone_is_exited_witness :
  let point := {| latitude := 40.7128%float; longitude := (-74.0060)%float |} in
  (storedZone "t1" inDowntown = Some "Downtown"
   ∧ "Downtown" ≠ EmptyString
   ∧ ∀ zone, zone ∈ zones inDowntown → isPointInZone point zone = true →
             zone_id zone = "downtown")
  ∧ event (fst (trackVehicleLocation "t1" 40.7128%float (-74.0060)%float 9%float
                  (fst (removeZone "downtown" inDowntown))))
    = Some (mkZoneEvent exit "Downtown" 9%float).
Proof.
  intros point.
  assert (storedZone "t1" inDowntown = Some "Downtown") as H1
    by (vm_compute; reflexivity).
  assert ("Downtown" ≠ EmptyString) as H2 by discriminate.
  assert (∀ zone, zone ∈ zones inDowntown → isPointInZone point zone = true →
                  zone_id zone = "downtown") as H3.
  { intros zone Hin. change (zones inDowntown) with predefinedZones in Hin.
    unfold predefinedZones in Hin.
    repeat (apply elem_of_cons in Hin as [->|Hin];
            [vm_compute; (reflexivity || discriminate)|]).
    by apply elem_of_nil in Hin. }
  split; [done|].
  apply (removed_zone_is_exited "t1" "downtown" "Downtown" _ _ 9%float
           inDowntown H1 H2 H3).
Defined.

(** * Further properties of the tracker *)

(** X11: the first report of a vehicle, one the store has no entry for, and
    so also the first after a reset, never logs a warning; it is an entry
    into the resolved zone, reported and alone in the history, or nothing
    at all when the point is in no zone. *)
Theorem first_report_never_warns
    (vehicleId : string) (lat lon timestamp : number) (w : World) :
  vehicleStore w !! vehicleId = None →
  let r := fst (trackVehicleLocation vehicleId lat lon timestamp w) in
  let w' := snd (trackVehicleLocation vehicleId lat lon timestamp w) in
  match findCurrentZone {| latitude := lat; longitude := lon |} w with
  | Some z =>
      eventTriggered r = true
      ∧ event r = Some (mkZoneEvent enter z timestamp)
      ∧ history vehicleId w' = [mkZoneEvent enter z timestamp]
      ∧ console w' = console w ++ [(INFO, Entered vehicleId z)]
  | None =>
      eventTriggered r = false ∧ event r = None
      ∧ history vehicleId w' = [] ∧ console w' = console w
  end.
Proof.
  intros Hnew r w'. unfold r, w'.
  rewrite trackVehicleLocation_history, trackVehicleLocation_result,
    trackVehicleLocation_console.
  unfold storedZone, history, anomalousJump. rewrite Hnew. simpl.
  destruct (findCurrentZone _ w) as [z|].
  - by rewrite zoneChange_enter.
  - rewrite zoneChange_same. simpl. by rewrite !app_nil_r.
Qed.

Lemma first_report_never_warns_witness :
  let w := clearAllVehicleData inDowntown in
  vehicleStore w !! "t1" = None
  ∧ console (snd (trackVehicleLocation "t1" 0%float 0%float 5%float w)) = console w.
Proof.
  intros w.
  assert (vehicleStore w !! "t1" = None) as H by (vm_compute; reflexivity).
  split; [done|].
  pose proof (first_report_never_warns "t1" 0%float 0%float 5%float w H) as Hfirst.
  cbn zeta in Hfirst.
  replace (findCurrentZone (mkGeoPoint 0 0) w) with (@None string) in Hfirst
    by (vm_compute; reflexivity).
  by destruct Hfirst as (_ & _ & _ & ?).
Defined.

(** ** Listings *)

Lemma perform_store_is_Some (a : Action) (w : World) (k : string) :
  is_Some (vehicleStore (perform a w) !! k) ↔
  match a with
  | Track c => is_Some (vehicleStore w !! k) ∨ call_vehicleId c = k
  | Reset => False
  end.
Proof.
  pose proof (perform_tracked a w k) as H. destruct a as [c|].
  - rewrite <- (bool_decide_spec (is_Some (vehicleStore (perform (Track c) w) !! k))).
    rewrite H, Is_true_true, orb_true_iff, !bool_decide_eq_true. done.
  - apply bool_decide_eq_false_1 in H. by split.
Qed.

Lemma keysAfter_tracked (acts : list Action) (keys : list string) (w : World) :
  NoDup keys →
  (∀ k, k ∈ keys ↔ is_Some (vehicleStore w !! k)) →
  NoDup (keysAfter acts keys)
  ∧ ∀ k, k ∈ keysAfter acts keys ↔ is_Some (vehicleStore (run acts w) !! k).
Proof.
  revert keys w. induction acts as [|a rest IH]; intros keys w Hnd Hkeys; [done|].
  destruct a as [c|]; cbn [keysAfter run].
  - apply IH.
    + case_bool_decide as Hin; [done|].
      apply NoDup_app. split; [done|]. split; [|apply NoDup_singleton].
      by intros k Hk ->%list_elem_of_singleton.
    + intros k. rewrite perform_store_is_Some, <- Hkeys.
      case_bool_decide as Hin.
      * split; [by left|]. by intros [|<-].
      * rewrite elem_of_app, list_elem_of_singleton.
        split; (intros [?|?]; [by left | by right]).
  - apply IH; [apply NoDup_nil_2|].
    intros k. rewrite perform_store_is_Some. split; [|done].
    by intros Hin%elem_of_nil.
Qed.

Lemma getVehicleStatus_vehicleId (k : string) (w : World) (st : VehicleStatus) :
  fst (getVehicleStatus k w) = Some st → st_vehicleId st = k.
Proof.
  unfold getVehicleStatus. destruct (vehicleStore w !! k); [|done].
  by intros [= <-].
Qed.

Lemma getAllTrackedVehicles_ids (keys : list string) (w : World) :
  (∀ k, k ∈ keys → is_Some (vehicleStore w !! k)) →
  st_vehicleId <$> getAllTrackedVehicles keys w = keys.
Proof.
  unfold getAllTrackedVehicles.
  induction keys as [|k keys IH]; intros Hall; [done|]. simpl.
  destruct (Hall k) as [d Hd]; [left|].
  unfold getVehicleStatus at 1. rewrite Hd. simpl. f_equal.
  apply IH. intros k' Hin. apply Hall. by right.
Qed.

(** The listing reads the store and nothing else of the world. *)
Lemma getAllTrackedVehicles_store (keys : list string) (w1 w2 : World) :
  vehicleStore w1 = vehicleStore w2 →
  getAllTrackedVehicles keys w1 = getAllTrackedVehicles keys w2.
Proof.
  intros Hstore. unfold getAllTrackedVehicles.
  induction keys as [|k keys IH]; [done|]. cbn [omap list_omap].
  rewrite IH. unfold getVehicleStatus. rewrite Hstore.
  by destruct (vehicleStore w2 !! k).
Qed.

Lemma getVehicleStatus_tracked (k : string) (w : World) :
  is_Some (vehicleStore w !! k) →
  ∃ st, fst (getVehicleStatus k w) = Some st ∧ st_vehicleId st = k.
Proof.
  intros [d Hd]. unfold getVehicleStatus. rewrite Hd. by eexists.
Qed.

(** X12: reports of two different vehicles, taken in either order.  Each
    call returns the same result, the store ends up holding the same data
    for every vehicle, and the catalog is the same.  The order in which the
    store lists the vehicles is the same when one of the two was listed
    before; when both are new, either order lists them last and in the
    order reported, so the two listings of [getAllTrackedVehicles]
    differ. *)
Theorem reports_of_different_vehicles_commute
    (c1 c2 : Call) (keys : list string) (w : World) :
  call_vehicleId c1 ≠ call_vehicleId c2 →
  let v1 := call_vehicleId c1 in
  let v2 := call_vehicleId c2 in
  let w12 := snd (track c2 (snd (track c1 w))) in
  let w21 := snd (track c1 (snd (track c2 w))) in
  let keys12 := keysAfter [Track c1; Track c2] keys in
  let keys21 := keysAfter [Track c2; Track c1] keys in
  fst (track c1 w) = fst (track c1 (snd (track c2 w)))
  ∧ fst (track c2 w) = fst (track c2 (snd (track c1 w)))
  ∧ vehicleStore w12 = vehicleStore w21
  ∧ zones w12 = zones w21
  ∧ (v1 ∈ keys ∨ v2 ∈ keys →
     keys12 = keys21
     ∧ getAllTrackedVehicles keys12 w12 = getAllTrackedVehicles keys21 w21)
  ∧ (v1 ∉ keys → v2 ∉ keys →
     keys12 = keys ++ [v1; v2]
     ∧ keys21 = keys ++ [v2; v1]
     ∧ ∃ st1 st2,
         st_vehicleId st1 = v1 ∧ st_vehicleId st2 = v2
         ∧ getAllTrackedVehicles keys12 w12 =
           getAllTrackedVehicles keys w12 ++ [st1; st2]
         ∧ getAllTrackedVehicles keys21 w21 =
           getAllTrackedVehicles keys w12 ++ [st2; st1]
         ∧ getAllTrackedVehicles keys12 w12 ≠ getAllTrackedVehicles keys21 w21).
Proof.
  intros Hne v1 v2 w12 w21 keys12 keys21.
  assert (fst (track c1 w) = fst (track c1 (snd (track c2 w)))
          ∧ fst (track c2 w) = fst (track c2 (snd (track c1 w)))
          ∧ vehicleStore w12 = vehicleStore w21
          ∧ zones w12 = zones w21) as (Hr1 & Hr2 & Hstore & Hzones).
  { subst w12 w21.
    destruct (track_history_other c1 w (call_vehicleId c2) Hne) as [Hh2 Hz2].
    destruct (track_history_other c2 w (call_vehicleId c1) (not_eq_sym Hne))
      as [Hh1 Hz1].
    assert (∀ point c,
              findCurrentZone point (snd (track c w)) = findCurrentZone point w)
      as Hzone.
    { intros point c. apply findCurrentZone_zones, track_zones. }
    unfold track in *.
    rewrite !trackVehicleLocation_result, !trackVehicleLocation_store,
      !trackVehicleLocation_zones, Hh1, Hh2, Hz1, Hz2, !Hzone.
    repeat split. by apply insert_insert_ne. }
  do 4 (split; [done|]).
  assert (keys12 =
          if bool_decide (v1 ∈ keys)
          then (if bool_decide (v2 ∈ keys) then keys else keys ++ [v2])
          else (if bool_decide (v2 ∈ keys) then keys ++ [v1]
                else keys ++ [v1; v2])) as Hkeys12.
  { subst keys12. cbn [keysAfter]. fold v1 v2.
    destruct (decide (v1 ∈ keys)) as [H1|H1];
      [rewrite (bool_decide_eq_true_2 _ H1) | rewrite (bool_decide_eq_false_2 _ H1)];
      destruct (decide (v2 ∈ keys)) as [H2|H2];
      rewrite ?(bool_decide_eq_true_2 _ H2), ?(bool_decide_eq_false_2 _ H2);
      try done.
    - rewrite bool_decide_eq_true_2; [done|]. apply elem_of_app. by left.
    - rewrite bool_decide_eq_false_2; [by rewrite <- app_assoc|].
      rewrite elem_of_app, list_elem_of_singleton. intros [?|?]; [done|].
      by apply Hne. }
  assert (keys21 =
          if bool_decide (v1 ∈ keys)
          then (if bool_decide (v2 ∈ keys) then keys else keys ++ [v2])
          else (if bool_decide (v2 ∈ keys) then keys ++ [v1]
                else keys ++ [v2; v1])) as Hkeys21.
  { subst keys21. cbn [keysAfter]. fold v1 v2.
    destruct (decide (v2 ∈ keys)) as [H2|H2];
      [rewrite (bool_decide_eq_true_2 _ H2) | rewrite (bool_decide_eq_false_2 _ H2)];
      destruct (decide (v1 ∈ keys)) as [H1|H1];
      rewrite ?(bool_decide_eq_true_2 _ H1), ?(bool_decide_eq_false_2 _ H1);
      try done.
    - rewrite bool_decide_eq_true_2; [done|]. apply elem_of_app. by left.
    - rewrite bool_decide_eq_false_2; [by rewrite <- app_assoc|].
      rewrite elem_of_app, list_elem_of_singleton. intros [?|?]; [done|].
      by apply Hne. }
  split.
  - intros Hlisted.
    assert (keys12 = keys21) as Hsame.
    { rewrite Hkeys12, Hkeys21.
      destruct Hlisted as [H|H]; rewrite (bool_decide_eq_true_2 _ H); [done|].
      by destruct (bool_decide (v1 ∈ keys)). }
    split; [done|]. rewrite Hsame. by apply getAllTrackedVehicles_store.
  - intros H1 H2.
    rewrite (bool_decide_eq_false_2 _ H1), (bool_decide_eq_false_2 _ H2)
      in Hkeys12, Hkeys21.
    split; [done|]. split; [done|].
    assert (is_Some (vehicleStore w12 !! v1)) as Ht1.
    { subst w12. unfold track. rewrite !trackVehicleLocation_store.
      fold v1 v2. rewrite lookup_insert_ne by (intros ?; by apply Hne).
      by rewrite lookup_insert_eq. }
    assert (is_Some (vehicleStore w12 !! v2)) as Ht2.
    { subst w12. unfold track. rewrite trackVehicleLocation_store.
      fold v2. by rewrite lookup_insert_eq. }
    destruct (getVehicleStatus_tracked v1 w12 Ht1) as (st1 & Hst1 & Hid1).
    destruct (getVehicleStatus_tracked v2 w12 Ht2) as (st2 & Hst2 & Hid2).
    assert (getAllTrackedVehicles keys12 w12 =
            getAllTrackedVehicles keys w12 ++ [st1; st2]) as Hl12.
    { rewrite Hkeys12. unfold getAllTrackedVehicles. rewrite omap_app.
      cbn [omap list_omap]. by rewrite Hst1, Hst2. }
    assert (getAllTrackedVehicles keys21 w21 =
            getAllTrackedVehicles keys w12 ++ [st2; st1]) as Hl21.
    { rewrite <- (getAllTrackedVehicles_store keys21 w12 w21 Hstore), Hkeys21.
      unfold getAllTrackedVehicles. rewrite omap_app.
      cbn [omap list_omap]. by rewrite Hst1, Hst2. }
    exists st1, st2. do 4 (split; [done|]).
    rewrite Hl12, Hl21. intros Heq. apply app_inv_head in Heq.
    injection Heq as Heq _. apply Hne. fold v1 v2. by rewrite <- Hid1, <- Hid2, Heq.
Qed.

Lemma reports_of_different_vehicles_commute_witness :
  let c1 := mkCall "t1" 40.6995%float (-74.0087)%float 3%float in
  let c2 := mkCall "t2" 40.7128%float (-74.0060)%float 4%float in
  let w := initializeZones initialWorld in
  call_vehicleId c1 ≠ call_vehicleId c2
  ∧ keysAfter [Track c1; Track c2] [] = ["t1"; "t2"]
  ∧ keysAfter [Track c2; Track c1] [] = ["t2"; "t1"]
  ∧ vehicleStore (snd (track c2 (snd (track c1 w)))) =
    vehicleStore (snd (track c1 (snd (track c2 w))))
  ∧ getAllTrackedVehicles (keysAfter [Track c1; Track c2] [])
      (snd (track c2 (snd (track c1 w)))) ≠
    getAllTrackedVehicles (keysAfter [Track c2; Track c1] [])
      (snd (track c1 (snd (track c2 w)))).
Proof.
  intros c1 c2 w.
  assert (call_vehicleId c1 ≠ call_vehicleId c2) as H by discriminate.
  split; [done|].
  destruct (reports_of_different_vehicles_commute c1 c2 [] w H)
    as (_ & _ & Hstore & _ & _ & Hnew).
  destruct (Hnew (not_elem_of_nil _) (not_elem_of_nil _))
    as (Hkeys12 & Hkeys21 & st1 & st2 & _ & _ & _ & _ & Hdiffer).
  done.
Defined.

(** X13: after any run of reports and resets from a fresh store, with the
    ids in the order in which the vehicles were first reported since the
    last reset, the listing of all vehicles holds exactly one status for
    every tracked vehicle, in that order, each the status [getVehicleStatus]
    gives for that vehicle. *)
Theorem getAllTrackedVehicles_one_per_vehicle (zs : list Zone) (acts : list Action) :
  let w := run acts (startWith zs) in
  let keys := keysAfter acts [] in
  NoDup keys
  ∧ (∀ k, k ∈ keys ↔ is_Some (vehicleStore w !! k))
  ∧ st_vehicleId <$> getAllTrackedVehicles keys w = keys
  ∧ (∀ st, st ∈ getAllTrackedVehicles keys w ↔
           ∃ k, fst (getVehicleStatus k w) = Some st).
Proof.
  intros w keys.
  destruct (keysAfter_tracked acts [] (startWith zs)) as [Hnd Hkeys].
  { apply NoDup_nil_2. }
  { intros k. unfold startWith. cbn [vehicleStore]. rewrite lookup_empty.
    split; [by intros ?%elem_of_nil | by intros ?%is_Some_None]. }
  fold w keys in Hnd, Hkeys. split; [done|]. split; [done|]. split.
  - apply getAllTrackedVehicles_ids. intros k. apply Hkeys.
  - intros st. unfold getAllTrackedVehicles. rewrite list_elem_of_omap. split.
    + intros (k & _ & Hk). eauto.
    + intros (k & Hk). exists k. split; [|done]. apply Hkeys.
      unfold getVehicleStatus in Hk.
      by destruct (vehicleStore w !! k).
Qed.

(** X14: the listing of the vehicles in a zone holds the status of a listed
    vehicle exactly when its stored zone is that zone and the zone's name
    is not the empty string; under the empty string nothing is listed. *)
Theorem getVehiclesInZone_members
    (zoneName : string) (keys : list string) (w : World) :
  (∀ st, st ∈ getVehiclesInZone zoneName keys w ↔
         ∃ k, k ∈ keys ∧ fst (getVehicleStatus k w) = Some st
              ∧ storedZone k w = Some zoneName ∧ zoneName ≠ EmptyString)
  ∧ getVehiclesInZone EmptyString keys w = [].
Proof.
  assert (∀ z st, st ∈ getVehiclesInZone z keys w ↔
            ∃ k, k ∈ keys ∧ fst (getVehicleStatus k w) = Some st
                 ∧ storedZone k w = Some z ∧ z ≠ EmptyString) as Hmem.
  { intros z st. unfold getVehiclesInZone, getAllTrackedVehicles.
    rewrite list_elem_of_filter, list_elem_of_omap. split.
    - intros (Hzone & k & Hin & Hst). exists k. split; [done|]. split; [done|].
      unfold getVehicleStatus, storedZone in *.
      destruct (vehicleStore w !! k) as [d|]; [|done].
      simpl in Hst. injection Hst as <-. simpl in *.
      destruct (currentZone (location d)) as [[|a s]|]; simpl in Hzone; try done.
      by injection Hzone as <-.
    - intros (k & Hin & Hst & Hzone & Hnamed). split; [|eauto].
      unfold getVehicleStatus, storedZone in *.
      destruct (vehicleStore w !! k) as [d|]; [|done].
      simpl in Hst, Hzone. injection Hst as <-. simpl. rewrite Hzone.
      apply orNull_named. congruence. }
  split; [apply Hmem|].
  destruct (getVehiclesInZone EmptyString keys w) as [|st l] eqn:Hl; [done|].
  assert (st ∈ getVehiclesInZone EmptyString keys w) as Hin by (rewrite Hl; left).
  apply Hmem in Hin as (k & _ & _ & _ & Hne). done.
Qed.

(** ** Entries and exits alternate *)

Lemma alternating_tail (e : ZoneEvent) (evs : list ZoneEvent) :
  alternating (e :: evs) → alternating evs.
Proof. destruct evs; [done|]. by intros [_ ?]. Qed.

Lemma alternating_drop (n : nat) (evs : list ZoneEvent) :
  alternating evs → alternating (drop n evs).
Proof.
  revert evs. induction n as [|n IH]; intros [|e evs] H; try done.
  simpl. eapply IH, alternating_tail, H.
Qed.

Lemma alternating_snoc (evs : list ZoneEvent) (x : ZoneEvent) :
  alternating evs →
  (∀ e, last evs = Some e → follows e x) →
  alternating (evs ++ [x]).
Proof.
  induction evs as [|e1 evs IH]; intros Halt Hlast; [done|].
  destruct evs as [|e2 evs].
  - simpl. split; [|done]. by apply Hlast.
  - destruct Halt as [H12 Halt]. split; [done|]. apply IH; [done|].
    intros e He. by apply Hlast.
Qed.

Lemma alternating_adjacent (older newer : list ZoneEvent) (e1 e2 : ZoneEvent) :
  alternating (older ++ e1 :: e2 :: newer) → follows e1 e2.
Proof.
  induction older as [|e older IH]; [by intros [? _]|].
  intros H. eapply IH, alternating_tail, H.
Qed.

Lemma keepRecent_alternating (evs : list ZoneEvent) :
  alternating evs → alternating (keepRecent evs).
Proof. rewrite keepRecent_slice_last. apply alternating_drop. Qed.

Lemma zoneChange_alternating (vehicleId : string) (timestamp : number)
    (previousZone newZone : option string) (evs : list ZoneEvent) :
  coherentWith previousZone (last evs) →
  alternating evs →
  alternating (evs ++ pushed (zoneChange vehicleId previousZone newZone timestamp)).
Proof.
  intros Hcoh Halt. destruct (decide (previousZone = newZone)) as [<-|Hne].
  { by rewrite zoneChange_same, app_nil_r. }
  destruct previousZone as [p|], newZone as [n|]; try done.
  - rewrite zoneChange_exit_enter by congruence. simpl.
    change [mkZoneEvent exit p timestamp; mkZoneEvent enter n timestamp]
      with ([mkZoneEvent exit p timestamp] ++ [mkZoneEvent enter n timestamp]).
    rewrite app_assoc. apply alternating_snoc.
    + apply alternating_snoc; [done|]. intros e He.
      destruct Hcoh as (e' & He' & Henter & Hzone).
      rewrite He in He'. injection He' as <-. unfold follows. by rewrite Henter.
    + intros e. rewrite last_snoc. by intros [= <-].
  - rewrite zoneChange_exit. simpl. apply alternating_snoc; [done|].
    intros e He. destruct Hcoh as (e' & He' & Henter & Hzone).
    rewrite He in He'. injection He' as <-. unfold follows. by rewrite Henter.
  - rewrite zoneChange_enter. simpl. apply alternating_snoc; [done|].
    intros e He. unfold follows. by rewrite (Hcoh e He).
Qed.

Section Alternation.
Variable zs : list Zone.
Hypothesis named : Forall (fun zone => name zone ≠ EmptyString) zs.

Lemma alternating_perform (a : Action) (w : World) :
  sound zs w →
  (∀ v d, vehicleStore w !! v = Some d → alternating (events d)) →
  ∀ v d, vehicleStore (perform a w) !! v = Some d → alternating (events d).
Proof.
  intros [Hzs Hstore] Halt v d. destruct a as [c|]; cbn [perform].
  - unfold track. rewrite trackVehicleLocation_store.
    destruct (decide (call_vehicleId c = v)) as [<-|Hne].
    + rewrite lookup_insert_eq. intros [= <-]. simpl.
      apply keepRecent_alternating. unfold storedZone, history.
      destruct (vehicleStore w !! call_vehicleId c) as [d0|] eqn:Hd0; simpl.
      * destruct (Hstore _ _ Hd0) as [Hnamed Hcoh].
        rewrite orNull_named by done.
        apply zoneChange_alternating; [done | by eapply Halt].
      * by apply (zoneChange_alternating _ _ None _ []).
    + rewrite lookup_insert_ne by done. apply Halt.
  - unfold clearAllVehicleData, logger.log. cbn [vehicleStore].
    by rewrite lookup_empty.
Qed.

Lemma alternating_run (acts : list Action) (w : World) :
  sound zs w →
  (∀ v d, vehicleStore w !! v = Some d → alternating (events d)) →
  ∀ v d, vehicleStore (run acts w) !! v = Some d → alternating (events d).
Proof.
  revert w. induction acts as [|a rest IH]; intros w Hsound Halt; [done|].
  cbn [run]. apply IH; [by apply sound_perform | by apply alternating_perform].
Qed.

(** X15: under a catalog none of whose zones is named by the empty string,
    in every state reached from a fresh store by reports and resets, the
    events of a history alternate: an entry is followed by the exit from
    the same zone, and an exit by an entry. *)
Theorem history_alternates
    (acts : list Action) (v : string) (d : VehicleData)
    (older newer : list ZoneEvent) (e1 e2 : ZoneEvent) :
  vehicleStore (run acts (startWith zs)) !! v = Some d →
  events d = older ++ e1 :: e2 :: newer →
  (ev_type e1 = enter → ev_type e2 = exit ∧ ev_zone e2 = ev_zone e1)
  ∧ (ev_type e1 = exit → ev_type e2 = enter).
Proof.
  intros Hd Hevents.
  assert (alternating (events d)) as Halt.
  { apply (alternating_run acts (startWith zs) (sound_startWith zs)) with v;
      [|done].
    intros v' d'. unfold startWith. cbn [vehicleStore]. by rewrite lookup_empty. }
  rewrite Hevents in Halt. apply alternating_adjacent in Halt.
  unfold follows in Halt. destruct (ev_type e1); split; try done.
Qed.
End Alternation.

Lemma history_alternates_witness :
  Forall (fun zone => name zone ≠ EmptyString) predefinedZones
  ∧ vehicleStore (run downtownToHarbor (startWith predefinedZones)) !! "t1"
    = Some harborData
  ∧ events harborData =
      [] ++ mkZoneEvent enter "Downtown" 1%float
         :: mkZoneEvent exit "Downtown" 3%float
         :: [mkZoneEvent enter "Harbor" 3%float]
  ∧ (ev_type (mkZoneEvent enter "Downtown" 1%float) = enter →
     ev_type (mkZoneEvent exit "Downtown" 3%float) = exit
     ∧ ev_zone (mkZoneEvent exit "Downtown" 3%float)
       = ev_zone (mkZoneEvent enter "Downtown" 1%float)).
Proof.
  assert (Forall (fun zone => name zone ≠ EmptyString) predefinedZones) as H1
    by (repeat constructor; discriminate).
  assert (vehicleStore (run downtownToHarbor (startWith predefinedZones)) !! "t1"
          = Some harborData) as H2 by (vm_compute; reflexivity).
  split; [done|]. split; [done|]. split; [done|].
  apply (history_alternates predefinedZones H1 downtownToHarbor "t1" harborData
           [] [mkZoneEvent enter "Harbor" 3%float] _ _ H2 eq_refl).
Defined.

(** * The validator *)

Lemma SFcompare_numbers (f g : spec_float) :
  f ≠ S754_nan → g ≠ S754_nan → is_Some (SFcompare f g).
Proof. destruct f, g; simpl; try done; eauto. Qed.

Lemma float_not_ltb_leb (a b : number) :
  isNaN a = false → isNaN b = false →
  (a <? b)%float = false ↔ (b <=? a)%float = true.
Proof.
  intros Ha Hb.
  assert (Prim2SF a ≠ S754_nan) as Ha'
    by (intros H%isNaN_spec; congruence).
  assert (Prim2SF b ≠ S754_nan) as Hb'
    by (intros H%isNaN_spec; congruence).
  rewrite FloatAxioms.ltb_spec, FloatAxioms.leb_spec. unfold SFltb, SFleb.
  rewrite (SFcompare_antisym (Prim2SF a) (Prim2SF b)).
  destruct (SFcompare_numbers _ _ Ha' Hb') as [c ->]. by destruct c.
Qed.

Lemma float_leb_numbers (a b : number) :
  (a <=? b)%float = true → isNaN a = false ∧ isNaN b = false.
Proof.
  intros H.
  split; apply not_true_is_false; intros Hnan%isNaN_spec;
    rewrite nan_leb in H by auto; done.
Qed.

Lemma within_bounds (low high n : number) :
  isNaN low = false → isNaN high = false →
  negb (isNaN n) && (low <=? n)%float && (n <=? high)%float =
  negb (isNaN n) && negb ((n <? low)%float || (high <? n)%float).
Proof.
  intros Hlow Hhigh. destruct (isNaN n) eqn:Hn; [done|]. simpl.
  destruct (n <? low)%float eqn:H1.
  - by rewrite (float_ltb_not_leb low n).
  - apply (float_not_ltb_leb _ _ Hn Hlow) in H1. rewrite H1. simpl.
    destruct (high <? n)%float eqn:H2.
    + by rewrite (float_ltb_not_leb n high).
    + by apply (float_not_ltb_leb _ _ Hhigh Hn) in H2.
Qed.

Lemma gps_checks (lat lon : number) :
  negb (isNaN lat) && (-90 <=? lat)%float && (lat <=? 90)%float
  && negb (isNaN lon) && (-180 <=? lon)%float && (lon <=? 180)%float =
  (negb (isNaN lat) && negb ((lat <? -90)%float || (90 <? lat)%float))
  && (negb (isNaN lon) && negb ((lon <? -180)%float || (180 <? lon)%float)).
Proof.
  rewrite <- (within_bounds (-90) 90 lat), <- (within_bounds (-180) 180 lon)
    by done.
  by rewrite !andb_assoc.
Qed.

Section ValidatorProperties.
Variable trim : string → string.

(** The checks a request passes to be accepted, as the validator makes them. *)
Lemma validateLocationInput_valid (vehicleId latitude longitude : JsValue) :
  valid (validateLocationInput trim vehicleId latitude longitude) = true ↔
  ∃ s lat lon,
    vehicleId = JsString s ∧ latitude = JsNumber lat ∧ longitude = JsNumber lon
    ∧ s ≠ EmptyString ∧ String.length (trim s) ≠ 0
    ∧ isNaN lat = false ∧ (lat <? -90)%float || (90 <? lat)%float = false
    ∧ isNaN lon = false ∧ (lon <? -180)%float || (180 <? lon)%float = false.
Proof.
  unfold validateLocationInput. split.
  - destruct (truthy vehicleId) eqn:Htruthy; [|done]. simpl.
    destruct (missing latitude) eqn:Hlat; [done|].
    destruct (missing longitude) eqn:Hlon; [done|].
    destruct vehicleId as [| | | |s|]; try done.
    destruct (String.length (trim s) =? 0) eqn:Htrim; [done|].
    destruct latitude as [| | |lat| |]; try done.
    destruct (isNaN lat) eqn:Hnlat; [done|].
    destruct ((lat <? -90)%float || (90 <? lat)%float) eqn:Hrlat; [done|].
    destruct longitude as [| | |lon| |]; try done.
    destruct (isNaN lon) eqn:Hnlon; [done|].
    destruct ((lon <? -180)%float || (180 <? lon)%float) eqn:Hrlon; [done|].
    intros _. exists s, lat, lon. repeat split; try done.
    + simpl in Htruthy. by intros ->.
    + by apply Nat.eqb_neq.
  - intros (s & lat & lon & -> & -> & -> & Hs & Htrim & Hnlat & Hrlat & Hnlon & Hrlon).
    simpl. apply String.eqb_neq in Hs. apply Nat.eqb_neq in Htrim.
    by rewrite Hs, Htrim, Hnlat, Hrlat, Hnlon, Hrlon.
Qed.

Lemma validateLocationInput_error (vehicleId latitude longitude : JsValue) :
  let r := validateLocationInput trim vehicleId latitude longitude in
  (valid r = true ∧ error r = None) ∨ (valid r = false ∧ is_Some (error r)).
Proof.
  unfold validateLocationInput, rejected.
  repeat match goal with
         | |- context [if ?b then _ else _] => destruct b
         | |- context [match ?v with JsUndefined => _ | _ => _ end] => destruct v
         end; simpl; eauto.
Qed.

(** X16: what an accepted request holds: a vehicle id that is a string,
    not empty and not trimmed to nothing, a latitude that is a number
    between -90 and 90 and a longitude that is a number between -180 and
    180, bounds included; in particular neither is NaN; and no error
    message comes with the acceptance. *)
Theorem accepted_fields_in_range (vehicleId latitude longitude : JsValue) :
  valid (validateLocationInput trim vehicleId latitude longitude) = true →
  ∃ s lat lon,
    vehicleId = JsString s ∧ latitude = JsNumber lat ∧ longitude = JsNumber lon
    ∧ s ≠ EmptyString ∧ trim s ≠ EmptyString
    ∧ (-90 <=? lat)%float = true ∧ (lat <=? 90)%float = true
    ∧ (-180 <=? lon)%float = true ∧ (lon <=? 180)%float = true
    ∧ isNaN lat = false ∧ isNaN lon = false
    ∧ error (validateLocationInput trim vehicleId latitude longitude) = None.
Proof.
  intros Hvalid.
  destruct (validateLocationInput_error vehicleId latitude longitude)
    as [[_ Herror]|[Hno _]]; [|congruence].
  apply validateLocationInput_valid in Hvalid
    as (s & lat & lon & -> & -> & -> & Hs & Htrim & Hnlat & Hrlat & Hnlon & Hrlon).
  exists s, lat, lon.
  pose proof (within_bounds (-90) 90 lat eq_refl eq_refl) as Hblat.
  pose proof (within_bounds (-180) 180 lon eq_refl eq_refl) as Hblon.
  rewrite Hnlat, Hrlat in Hblat. rewrite Hnlon, Hrlon in Hblon.
  simpl in Hblat, Hblon. apply andb_true_iff in Hblat as [? ?], Hblon as [? ?].
  repeat split; try done.
  intros Hempty. by rewrite Hempty in Htrim.
Qed.

Hypothesis trim_empty : trim EmptyString = EmptyString.

(** X17: the three validators agree, given that trimming the empty string
    gives the empty string: [validateLocationInput] accepts exactly the
    requests whose id [isValidVehicleId] accepts and whose coordinates
    [isValidGpsCoordinates] accepts, and it gives an error message exactly
    when it rejects. *)
Theorem validateLocationInput_accepts_iff (vehicleId latitude longitude : JsValue) :
  (valid (validateLocationInput trim vehicleId latitude longitude) = true ↔
   isValidVehicleId trim vehicleId = true
   ∧ isValidGpsCoordinates latitude longitude = true)
  ∧ (valid (validateLocationInput trim vehicleId latitude longitude) = false ↔
     is_Some (error (validateLocationInput trim vehicleId latitude longitude))).
Proof.
  split.
  - rewrite validateLocationInput_valid. split.
    + intros (s & lat & lon & -> & -> & -> & Hs & Htrim & Hnlat & Hrlat & Hnlon & Hrlon).
      simpl. split; [apply Nat.ltb_lt; lia|].
      by rewrite gps_checks, Hnlat, Hrlat, Hnlon, Hrlon.
    + unfold isValidVehicleId, isValidGpsCoordinates.
      intros [Hid Hgps].
      destruct vehicleId as [| | | |s|]; try done.
      destruct latitude as [| | |lat| |]; try done.
      destruct longitude as [| | |lon| |]; try done.
      apply Nat.ltb_lt in Hid.
      rewrite gps_checks in Hgps.
      apply andb_true_iff in Hgps as [[Hnlat Hrlat]%andb_true_iff
                                      [Hnlon Hrlon]%andb_true_iff].
      apply negb_true_iff in Hnlat, Hrlat, Hnlon, Hrlon.
      exists s, lat, lon. repeat split; try done; [|lia].
      intros ->. rewrite trim_empty in Hid. simpl in Hid. lia.
  - destruct (validateLocationInput_error vehicleId latitude longitude)
      as [[Hyes Herror]|[Hno Herror]].
    + rewrite Hyes, Herror. split; [done | by intros ?%is_Some_None].
    + by rewrite Hno.
Qed.
End ValidatorProperties.

Lemma accepted_fields_in_range_witness :
  valid (validateLocationInput dropSpaces (JsString "t1") (JsNumber 90)
           (JsNumber (-180))) = true
  ∧ ∃ s lat lon,
      JsString "t1" = JsString s ∧ (lat <=? 90)%float = true
      ∧ (-180 <=? lon)%float = true.
Proof.
  assert (valid (validateLocationInput dropSpaces (JsString "t1") (JsNumber 90)
                   (JsNumber (-180))) = true) as H by (vm_compute; reflexivity).
  split; [done|].
  destruct (accepted_fields_in_range dropSpaces _ _ _ H)
    as (s & lat & lon & Hs & _ & _ & _ & _ & _ & Hlat & Hlon & _).
  exists s, lat, lon. done.
Defined.

Lemma validateLocationInput_accepts_iff_witness :
  dropSpaces EmptyString = EmptyString
  ∧ (valid (validateLocationInput dropSpaces (JsString " ") (JsNumber 0)
              (JsNumber 0)) = true ↔
     isValidVehicleId dropSpaces (JsString " ") = true
     ∧ isValidGpsCoordinates (JsNumber 0) (JsNumber 0) = true).
Proof.
  split; [reflexivity|].
  apply (validateLocationInput_accepts_iff dropSpaces eq_refl).
Defined.

(** * The route that reports a location *)

Section PostLocation.
Variable trim : string → string.
Variables (now : number) (body : LocationBody) (w : World).

Local Abbreviation validation :=
  (validateLocationInput trim (body_vehicleId body) (body_latitude body)
     (body_longitude body)).

(** X18: a request with a body, whatever its four fields hold.  One the
    validator rejects is answered 400 with the validator's message and
    leaves the world as it was, whatever its timestamp.  An accepted one
    has a string for id and numbers for coordinates, and the tracker is
    called with them and with [timestamp || Date.now()]: when that is a
    number, the answer is 200 with what the tracker returned, the zone
    given as "Outside all zones" when there is none or its name is empty,
    and the world is the one the tracker left; when it is not a number,
    the tracker gets that value as its timestamp, in the world as it
    was. *)
Theorem postLocation_rejects_or_tracks :
  (valid validation = false →
   postLocation trim now body w =
   Answered {| statusCode := 400; success := false;
               payload := Failure (error validation) |} w)
  ∧ (valid validation = true →
     ∃ s lat lon,
       body_vehicleId body = JsString s ∧ body_latitude body = JsNumber lat
       ∧ body_longitude body = JsNumber lon
       ∧ (∀ t, timestampOr now (body_timestamp body) = JsNumber t →
            let tracked := trackVehicleLocation s lat lon t w in
            postLocation trim now body w =
            Answered
              {| statusCode := 200; success := true;
                 payload :=
                   LocationData s lat lon
                     (match res_currentZone (fst tracked) with
                      | Some z => if String.eqb z EmptyString
                                  then "Outside all zones" else z
                      | None => "Outside all zones"
                      end)
                     (eventTriggered (fst tracked)) (event (fst tracked)) |}
              (snd tracked))
       ∧ ((∀ t, timestampOr now (body_timestamp body) ≠ JsNumber t) →
          postLocation trim now body w =
          TrackedUntyped s lat lon (body_timestamp body) w)).
Proof.
  unfold postLocation.
  destruct (valid validation) eqn:Hvalid; cbn [negb]; (split; [done|]);
    [intros _ | done].
  apply validateLocationInput_valid in Hvalid
    as (s & lat & lon & Hs & Hlat & Hlon & _).
  rewrite Hs, Hlat, Hlon. exists s, lat, lon. do 3 (split; [done|]). split.
  - intros t ->. cbn zeta.
    destruct (trackVehicleLocation s lat lon t w) as [r w'] eqn:Htrack.
    assert (r = fst (trackVehicleLocation s lat lon t w)) as Hr
      by (by rewrite Htrack).
    cbn [fst snd]. rewrite Hr, trackVehicleLocation_result.
    cbn [res_vehicleId res_latitude res_longitude res_currentZone
         eventTriggered event].
    by destruct (findCurrentZone _ w) as [[|a z]|].
  - intros Hother. unfold timestampOr in *.
    destruct (truthy (body_timestamp body)) eqn:Htruthy.
    + by destruct (body_timestamp body) as [| | | t | |];
        try (by destruct (Hother t)).
    + by destruct (Hother now).
Qed.

(** X19: the timestamp of an accepted report.  The handler takes the
    server's clock exactly when the body's timestamp is falsy: absent,
    null, false, 0, NaN or the empty string.  A truthy one is taken as it
    is.  With a number, or with the clock, the location is stored with that
    timestamp and every event the call adds is stamped with it.  With
    anything else that is truthy (a string that is not empty, true, an
    object) the tracker is called with that value for a timestamp, not
    with the clock. *)
Theorem postLocation_timestamp :
  valid validation = true →
  ∃ s lat lon,
    body_vehicleId body = JsString s ∧ body_latitude body = JsNumber lat
    ∧ body_longitude body = JsNumber lon
    ∧ (truthy (body_timestamp body) = false →
       stampedWith s now w (postLocation trim now body w))
    ∧ (∀ t, body_timestamp body = JsNumber t →
         (t =? 0)%float = false → isNaN t = false →
         stampedWith s t w (postLocation trim now body w))
    ∧ (truthy (body_timestamp body) = true →
       (∀ t, body_timestamp body ≠ JsNumber t) →
       postLocation trim now body w =
       TrackedUntyped s lat lon (body_timestamp body) w).
Proof.
  intros Hvalid.
  assert (∀ s lat lon t,
            body_vehicleId body = JsString s → body_latitude body = JsNumber lat →
            body_longitude body = JsNumber lon →
            timestampOr now (body_timestamp body) = JsNumber t →
            stampedWith s t w (postLocation trim now body w)) as Hstamped.
  { intros s lat lon t Hs Hlat Hlon Ht.
    unfold postLocation. rewrite Hvalid, Hs, Hlat, Hlon, Ht. cbn [negb].
    destruct (trackVehicleLocation s lat lon t w) as [r w'] eqn:Htrack.
    assert (w' = snd (trackVehicleLocation s lat lon t w)) as ->
      by (by rewrite Htrack).
    eexists _, _, _. split; [done|]. split; [done|].
    rewrite trackVehicleLocation_store, lookup_insert_eq.
    split; [done|]. split; [done|]. cbn [events].
    intros e He. rewrite keepRecent_slice_last in He.
    unfold slice_last in He. apply subseteq_drop in He.
    apply elem_of_app in He as [He|He]; [by left|]. right.
    unfold zoneChange in He. case_decide; [by apply elem_of_nil in He|].
    destruct (orNull _) as [p|], (findCurrentZone _ w) as [n|]; simpl in He;
      repeat (apply elem_of_cons in He as [->|He]; [done|]);
      by apply elem_of_nil in He. }
  pose proof Hvalid as Hshape.
  apply validateLocationInput_valid in Hshape
    as (s & lat & lon & Hs & Hlat & Hlon & _).
  exists s, lat, lon. do 3 (split; [done|]). split; [|split].
  - intros Hfalsy. apply (Hstamped s lat lon now Hs Hlat Hlon).
    unfold timestampOr. by rewrite Hfalsy.
  - intros t Ht Hzero Hnan. apply (Hstamped s lat lon t Hs Hlat Hlon).
    unfold timestampOr. rewrite Ht. cbn [truthy]. by rewrite Hzero, Hnan.
  - intros Htruthy Hother. unfold postLocation, timestampOr.
    rewrite Hvalid, Hs, Hlat, Hlon, Htruthy. cbn [negb].
    by destruct (body_timestamp body) as [| | | t | |];
      try (by destruct (Hother t)).
Qed.
End PostLocation.

Lemma postLocation_rejects_or_tracks_witness :
  let body := mkLocationBody (JsString "t1") (JsNumber 91%float)
                (JsNumber 0%float) (JsString "yesterday") in
  valid (validateLocationInput dropSpaces (body_vehicleId body)
           (body_latitude body) (body_longitude body)) = false
  ∧ postLocation dropSpaces 7%float body inDowntown =
    Answered
      {| statusCode := 400; success := false;
         payload := Failure (Some "Invalid latitude. Must be between -90 and 90") |}
      inDowntown.
Proof.
  intros body.
  assert (valid (validateLocationInput dropSpaces (body_vehicleId body)
                   (body_latitude body) (body_longitude body)) = false) as H
    by (vm_compute; reflexivity).
  split; [done|].
  destruct (postLocation_rejects_or_tracks dropSpaces 7%float body inDowntown)
    as [Hreject _].
  exact (Hreject H).
Defined.

Lemma postLocation_timestamp_witness :
  valid (validateLocationInput dropSpaces (body_vehicleId yesterdayBody)
           (body_latitude yesterdayBody) (body_longitude yesterdayBody)) = true
  ∧ postLocation dropSpaces 7%float yesterdayBody (initializeZones initialWorld) =
    TrackedUntyped "t1" 40.7128%float (-74.0060)%float (JsString "yesterday")
      (initializeZones initialWorld).
Proof.
  assert (valid (validateLocationInput dropSpaces (body_vehicleId yesterdayBody)
                   (body_latitude yesterdayBody) (body_longitude yesterdayBody))
          = true) as H by (vm_compute; reflexivity).
  split; [done|].
  destruct (postLocation_timestamp dropSpaces 7%float yesterdayBody
              (initializeZones initialWorld) H)
    as (s & lat & lon & Hs & Hlat & Hlon & _ & _ & Huntyped).
  injection Hs as <-. injection Hlat as <-. injection Hlon as <-.
  apply Huntyped; [reflexivity | discriminate].
Defined.

(** * The entered zone, under every catalog *)

Lemma orNull_Some (value : option string) (z : string) :
  orNull value = Some z → value = Some z.
Proof. unfold orNull. by destruct value as [[|]|]. Qed.

(** A report that resolves to zone [z] leaves the entry into [z] as the
    latest event, provided it was the latest already when the zone read from
    the store is [z]. *)
Lemma zoneChange_entered (vehicleId : string) (timestamp : number)
    (previousZone : option string) (z : string) (evs : list ZoneEvent) :
  (previousZone = Some z →
   ∃ e, last evs = Some e ∧ ev_type e = enter ∧ ev_zone e = z) →
  ∃ e, last (evs ++ pushed (zoneChange vehicleId previousZone (Some z) timestamp))
       = Some e
       ∧ ev_type e = enter ∧ ev_zone e = z.
Proof.
  intros Hold. destruct (decide (previousZone = Some z)) as [->|Hne].
  { rewrite zoneChange_same, app_nil_r. by apply Hold. }
  destruct previousZone as [p|].
  - rewrite zoneChange_exit_enter by congruence. simpl.
    rewrite last_app_two. by eexists.
  - rewrite zoneChange_enter. simpl. rewrite last_snoc. by eexists.
Qed.

Lemma enteredLatest_perform (a : Action) (w : World) :
  enteredLatest w → enteredLatest (perform a w).
Proof.
  intros Hw. destruct a as [c|]; cbn [perform].
  - intros v d z. unfold track. rewrite trackVehicleLocation_store.
    destruct (decide (call_vehicleId c = v)) as [<-|Hne].
    + rewrite lookup_insert_eq. intros [= <-]. cbn [location currentZone events].
      intros Hz. rewrite Hz, last_keepRecent. apply zoneChange_entered.
      intros Hprev%orNull_Some. unfold storedZone in Hprev. unfold history.
      destruct (vehicleStore w !! call_vehicleId c) as [d0|] eqn:Hd0; [|done].
      by apply (Hw (call_vehicleId c)).
    + rewrite lookup_insert_ne by done. apply Hw.
  - intros v d z Hd. unfold clearAllVehicleData, logger.log in Hd.
    cbn [vehicleStore] in Hd. by rewrite lookup_empty in Hd.
Qed.

Lemma enteredLatest_run (acts : list Action) (w : World) :
  enteredLatest w → enteredLatest (run acts w).
Proof.
  revert w. induction acts as [|a rest IH]; intros w Hw; [done|].
  cbn [run]. by apply IH, enteredLatest_perform.
Qed.

(** X20: under every catalog, zones named by the empty string included, in
    every state reached from a fresh store by reports and resets, a tracked
    vehicle whose stored zone is [z] has a history that is not empty and
    ends with the entry into [z]. *)
Theorem entered_zone_is_latest_event
    (zs : list Zone) (acts : list Action) (v : string) (d : VehicleData)
    (z : string) :
  vehicleStore (run acts (startWith zs)) !! v = Some d →
  currentZone (location d) = Some z →
  ∃ older e, events d = older ++ [e] ∧ ev_type e = enter ∧ ev_zone e = z.
Proof.
  intros Hd Hz.
  assert (enteredLatest (startWith zs)) as Hstart.
  { intros v' d' z' Hd'. unfold startWith in Hd'. cbn [vehicleStore] in Hd'.
    by rewrite lookup_empty in Hd'. }
  destruct (enteredLatest_run acts _ Hstart v d z Hd Hz)
    as (e & Hlast & Henter & Hzone).
  apply last_Some in Hlast as [older ->]. eauto.
Qed.

Lemma entered_zone_is_latest_event_witness :
  vehicleStore (run twiceInUnnamed (startWith (zones unnamedCatalog))) !! "v"
    = Some unnamedData
  ∧ currentZone (location unnamedData) = Some EmptyString
  ∧ ∃ older e, events unnamedData = older ++ [e]
               ∧ ev_type e = enter ∧ ev_zone e = EmptyString.
Proof.
  assert (vehicleStore (run twiceInUnnamed (startWith (zones unnamedCatalog)))
            !! "v" = Some unnamedData) as H by (vm_compute; reflexivity).
  split; [done|]. split; [done|].
  apply (entered_zone_is_latest_event (zones unnamedCatalog) twiceInUnnamed "v"
           unnamedData EmptyString H eq_refl).
Defined.
